(** * LLVMDwarf: a shallow embedding of the DWARF dump generators

    [src/main_simple.cpp] builds a tree of debug-information entries with
    LLVM's [DIE] classes, interns the strings in a [SimpleStringPool], lets
    [DIE::computeOffsetsAndAbbrevs] lay the tree out, and prints it with
    [printDIE].  [src/main.cpp] generates a full textual dump and filters the
    [.debug_line] section out of it.

    Unsigned C++ integers ([uint32_t], [uint64_t], [unsigned], [size_t]) are
    modelled as [N]; the narrowing conversions of the source are written out
    as [mod 2^32].  A [std::string] is a Rocq [string] (a sequence of bytes
    that may hold NUL bytes), [std::map<std::string, uint32_t>] is a
    [gmap string N]. *)

From Stdlib Require Import NArith ZArith Lia Ascii String List.
From stdpp Require Import base option list sorting strings gmap pretty.

Set Warnings "-register-all".

Local Open Scope N_scope.

(* ===================================================================== *)
(** * Bytes and strings                                                   *)
(* ===================================================================== *)

(** The terminator byte ['\0']. *)
Definition NUL : ascii := Ascii.zero.

(** The line feed ['\n'] and the double quote, as one-byte strings. *)
Definition nl : string := String (ascii_of_nat 10) EmptyString.
Definition dquote : string := String (ascii_of_nat 34) EmptyString.

(** [s.size()] as an unsigned number. *)
Definition size (s : string) : N := N.of_nat (String.length s).

(** Conversion to [uint32_t]. *)
Definition uint32 (n : N) : N := n mod 2 ^ 32.

(** Pointer arithmetic [c_str() + n]: the bytes from position [n] on. *)
Fixpoint str_drop (n : nat) (s : string) : string :=
  match n, s with
  | O, _ => s
  | S n', String _ s' => str_drop n' s'
  | S _, EmptyString => EmptyString
  end.

(** Construction of a [std::string] from a C string: the bytes up to, and
    without, the first NUL.  A [std::string]'s [c_str()] is always NUL-terminated at index
    [size()], so the end of the buffer stops the scan as well. *)
Fixpoint c_str_read (s : string) : string :=
  match s with
  | EmptyString => EmptyString
  | String c s' => if decide (c = NUL) then EmptyString else String c (c_str_read s')
  end.

(** A string holds no NUL byte. *)
Fixpoint no_nul (s : string) : Prop :=
  match s with
  | EmptyString => True
  | String c s' => c <> NUL /\ no_nul s'
  end.

(** [std::string(n, c)]. *)
Fixpoint str_make (n : nat) (c : ascii) : string :=
  match n with
  | O => EmptyString
  | S n' => String c (str_make n' c)
  end.

(* ===================================================================== *)
(** * SimpleStringPool (main_simple.cpp, lines 16-45)                     *)
(* ===================================================================== *)

Record SimpleStringPool : Type := mkPool {
  data : string;
  offsets : gmap string N
}.

(** A default-constructed pool. *)
Definition empty_pool : SimpleStringPool := mkPool EmptyString ∅.

(** [uint32_t add(const std::string &str)]: the returned offset and the
    pool after the call. *)
Definition add (str : string) (p : SimpleStringPool) : N * SimpleStringPool :=
  match offsets p !! str with
  | Some off => (off, p)
  | None =>
      let offset := uint32 (size (data p)) in
      (offset,
       mkPool (data p +:+ str +:+ String NUL EmptyString)
              (<[str := offset]> (offsets p)))
  end.

Definition getData (p : SimpleStringPool) : string := data p.

Definition getSize (p : SimpleStringPool) : N := uint32 (size (data p)).

(** [std::string getStringAt(uint32_t offset) const]. *)
Definition getStringAt (p : SimpleStringPool) (offset : N) : string :=
  if size (data p) <=? offset then EmptyString
  else c_str_read (str_drop (N.to_nat offset) (data p)).

(** The pools a program can hold: the class keeps [data] and [offsets]
    private, so every pool is the empty one after some calls of [add]. *)
Inductive reachable : SimpleStringPool -> Prop :=
| reach_empty : reachable empty_pool
| reach_add (s : string) (p : SimpleStringPool) :
    reachable p -> reachable (add s p).2.

(** Every recorded offset is where its string starts in the buffer (as a
    32-bit number), and the string is followed by a terminator. *)
Definition pool_inv (p : SimpleStringPool) : Prop :=
  forall s off, offsets p !! s = Some off ->
    exists pre post,
      data p = pre +:+ s +:+ String NUL post /\ off = uint32 (size pre).

(** The buffer ends with the terminator. *)
Definition ends_with_nul (s : string) : Prop :=
  exists d, s = d +:+ String NUL EmptyString.


(* ===================================================================== *)
(** * Debug-information entries                                           *)
(* ===================================================================== *)

(** [dwarf::Tag], [dwarf::Attribute], [dwarf::Form] and the attribute
    encodings are C++ enumerations over unsigned integers; an enumerator is
    modelled by its code.  The codes below are those of the DWARF standard
    (LLVM's [Dwarf.def], which is not part of this repository); only the
    fact that different names have different codes matters here. *)
Abbreviation Tag := N (only parsing).
Abbreviation Attribute := N (only parsing).
Abbreviation Form := N (only parsing).

Definition DW_TAG_member : Tag := 0x0d.
Definition DW_TAG_pointer_type : Tag := 0x0f.
Definition DW_TAG_compile_unit : Tag := 0x11.
Definition DW_TAG_structure_type : Tag := 0x13.
Definition DW_TAG_base_type : Tag := 0x24.

Definition DW_AT_name : Attribute := 0x03.
Definition DW_AT_byte_size : Attribute := 0x0b.
Definition DW_AT_language : Attribute := 0x13.
Definition DW_AT_producer : Attribute := 0x25.
Definition DW_AT_data_member_location : Attribute := 0x38.
Definition DW_AT_encoding : Attribute := 0x3e.
Definition DW_AT_type : Attribute := 0x49.

Definition DW_FORM_data2 : Form := 0x05.
Definition DW_FORM_data4 : Form := 0x06.
Definition DW_FORM_data8 : Form := 0x07.
Definition DW_FORM_string : Form := 0x08.
Definition DW_FORM_data1 : Form := 0x0b.
Definition DW_FORM_strp : Form := 0x0e.
Definition DW_FORM_ref4 : Form := 0x13.

Definition DW_LANG_C_plus_plus : N := 0x04.
Definition DW_ATE_signed : N := 0x05.
Definition DW_ATE_signed_char : N := 0x06.

(** What a [DIEValue] holds ([DIEValue::getType()] with its payload): an
    integer ([DIEInteger], also used for string-pool offsets), a reference
    to another entry ([DIEEntry], modelled by the address of the entry it
    designates), or a value of one of the other kinds, which [printDIE]
    handles in the default case of its switch. *)
Inductive DIEValueType : Type :=
| isInteger (Val : N)
| isEntry (Entry : N)
| isOther.

(** One attribute of an entry: [(attributeKind, form, value)]. *)
Record DIEValue : Type := mkDIEValue {
  getAttribute : Attribute;
  getForm : Form;
  getType : DIEValueType
}.

(** An entry.  Ownership is a tree (an entry owns its children); a
    reference to an entry is the address [getAddr] of that entry, which is
    what keeps two entries with equal fields apart.  [getOffset] and
    [getAbbrevNumber] are the fields resolution assigns. *)
Inductive DIE : Type := mkDIE {
  getAddr : N;
  getTag : Tag;
  ForceChildren : bool;
  values : list DIEValue;
  children : list DIE;
  getOffset : N;
  getAbbrevNumber : N
}.

(** [DIE::hasChildren()]: the has-children flag of an entry is a structural
    flag of its own, not inferred from the length of the child list only. *)
Definition hasChildren (d : DIE) : bool :=
  ForceChildren d || negb (bool_decide (children d = [])).

(** The traversal order: pre-order, depth first, parent before children,
    children in insertion order. *)
Fixpoint preorder (d : DIE) : list DIE :=
  d :: flat_map preorder (children d).

(** The entries below [d]. *)
Definition descendants (d : DIE) : list DIE :=
  flat_map preorder (children d).

(** Following a reference: the entry of the tree [root] that lives at
    address [a]. *)
Definition getEntry (root : DIE) (a : N) : option DIE :=
  List.find (fun d => bool_decide (getAddr d = a)) (preorder root).

(** No two entries of the tree share an address. *)
Definition distinct_addresses (root : DIE) : Prop :=
  NoDup (map getAddr (preorder root)).

(** The triples [(tag, abbreviationId, offset)] in traversal order. *)
Definition triples (d : DIE) : list (Tag * N * N) :=
  map (fun x => (getTag x, getAbbrevNumber x, getOffset x)) (preorder d).

(** An entry without the fields resolution assigns: with [keepAbbrev] the
    abbreviation numbers stay, the offsets go; without, both go. *)
Fixpoint strip (keepAbbrev : bool) (d : DIE) : DIE :=
  mkDIE (getAddr d) (getTag d) (ForceChildren d) (values d)
        (map (strip keepAbbrev) (children d))
        0 (if keepAbbrev then getAbbrevNumber d else 0).

(* ===================================================================== *)
(** * Resolution: abbreviations, offsets, references                      *)
(* ===================================================================== *)

(** [DIE::computeOffsetsAndAbbrevs] and [DIEAbbrevSet] belong to LLVM; the
    repository only calls them (main_simple.cpp, lines 107 and 166-168).
    The definitions of this part follow the specification, sections 3, 4.3
    and 4.4. *)

(** Modelled from the spec: the global layout parameters of LLVM's
    [dwarf::FormParams] (declared outside this repository): address size,
    offset size, format version. *)
Record FormParams : Type := mkFormParams {
  AddrSize : N;
  OffsetSize : N;
  FormatVersion : N
}.

(** The 32-bit DWARF format, first enumerator of [dwarf::DwarfFormat]. *)
Definition DWARF32 : N := 0.

(** Modelled from the spec: the shape signature of an entry, which the
    Abbreviation Table (LLVM's [DIEAbbrevSet], not in this repository) keys
    on: tag, has-children flag, and the ordered list of
    [(attributeKind, form)] pairs, not the values. *)
Definition shape (d : DIE) : Tag * bool * list (Attribute * Form) :=
  (getTag d, hasChildren d,
   map (fun V => (getAttribute V, getForm V)) (values d)).

(** Modelled from the spec: the Abbreviation Table of LLVM's [DIEAbbrevSet]
    (not in this repository), a mapping from shape signature to id together
    with the next id to hand out. *)
Record DIEAbbrevSet : Type := mkAbbrevSet {
  abbrevs : gmap (Tag * bool * list (Attribute * Form)) N;
  nextNumber : N
}.

(** Modelled from the spec: a fresh Abbreviation Table, which is missing
    from the sources with the rest of [DIEAbbrevSet]; ids start from the
    base the caller supplies. *)
Definition freshAbbrevSet (base : N) : DIEAbbrevSet := mkAbbrevSet ∅ base.

(** Modelled from the spec: [canonicalize(entry) -> abbreviationId] of the
    missing [DIEAbbrevSet]: look the shape up, and either return the
    existing id or allocate the next sequential id. *)
Definition canonicalize (S : DIEAbbrevSet) (d : DIE) : N * DIEAbbrevSet :=
  match abbrevs S !! shape d with
  | Some id => (id, S)
  | None =>
      (nextNumber S,
       mkAbbrevSet (<[shape d := nextNumber S]> (abbrevs S)) (nextNumber S + 1))
  end.

(** A walk over a list that threads a state through: used for the children
    of an entry, in insertion order. *)
Definition mapAccum {S A B : Type} (f : S -> A -> B * S) :
    S -> list A -> list B * S :=
  fix go (s : S) (l : list A) : list B * S :=
    match l with
    | [] => ([], s)
    | x :: l' =>
        let '(y, s1) := f s x in
        let '(ys, s2) := go s1 l' in
        (y :: ys, s2)
    end.

(** The same walk for a step that can fail. *)
Definition mapAccumM {S A B : Type} (f : S -> A -> option (B * S)) :
    S -> list A -> option (list B * S) :=
  fix go (s : S) (l : list A) : option (list B * S) :=
    match l with
    | [] => Some ([], s)
    | x :: l' =>
        match f s x with
        | None => None
        | Some (y, s1) =>
            match go s1 l' with
            | None => None
            | Some (ys, s2) => Some (y :: ys, s2)
            end
        end
    end.

(** Modelled from the spec: pass 1 of the missing
    [DIE::computeOffsetsAndAbbrevs], the abbreviation assignment pass.
    Visit every entry in traversal order and assign its abbreviation id. *)
Fixpoint assignAbbrevs (S : DIEAbbrevSet) (d : DIE) {struct d} :
    DIE * DIEAbbrevSet :=
  let '(id, S1) := canonicalize S d in
  let '(cs, S2) := mapAccum assignAbbrevs S1 (children d) in
  (mkDIE (getAddr d) (getTag d) (ForceChildren d) (values d) cs
         (getOffset d) id,
   S2).

(** Modelled from the spec: the encoded size of a variable-length unsigned
    integer (ULEB128, seven bits to the byte), which LLVM computes outside
    this repository. *)
Definition getULEB128Size (n : N) : N := 1 + N.log2 n / 7.

(** Modelled from the spec: the encoded size of one attribute, from LLVM's
    missing [DIEValue::sizeOf]: 1/2/4/8 bytes for the fixed-size integer
    forms, the offset size for string-pool references, a fixed reference
    width for entry references.  A value that does not fit its form
    (FormValueMismatch) has no size. *)
Definition sizeOf (fp : FormParams) (V : DIEValue) : option N :=
  match getType V with
  | isInteger v =>
      if decide (getForm V = DW_FORM_data1) then
        if decide (v < 2 ^ 8) then Some 1 else None
      else if decide (getForm V = DW_FORM_data2) then
        if decide (v < 2 ^ 16) then Some 2 else None
      else if decide (getForm V = DW_FORM_data4) then
        if decide (v < 2 ^ 32) then Some 4 else None
      else if decide (getForm V = DW_FORM_data8) then
        if decide (v < 2 ^ 64) then Some 8 else None
      else if decide (getForm V = DW_FORM_strp) then Some (OffsetSize fp)
      else None
  | isEntry _ =>
      if decide (getForm V = DW_FORM_ref4) then Some 4 else None
  | isOther => None
  end.

(** The encoded size of all attributes of an entry. *)
Fixpoint valuesSize (fp : FormParams) (vs : list DIEValue) : option N :=
  match vs with
  | [] => Some 0
  | V :: vs' =>
      match sizeOf fp V, valuesSize fp vs' with
      | Some n, Some m => Some (n + m)
      | _, _ => None
      end
  end.

(** Modelled from the spec: pass 2 of the missing
    [DIE::computeOffsetsAndAbbrevs], the offset assignment pass.  An
    entry's offset is the cursor when it is visited; the cursor advances by
    the encoded size of the abbreviation id and of the attributes, then the
    children are laid out, then one terminator unit follows if the entry
    has children.  The result is the entry with offsets and the cursor
    after it. *)
Fixpoint assignOffsets (fp : FormParams) (cursor : N) (d : DIE) {struct d} :
    option (DIE * N) :=
  match valuesSize fp (values d) with
  | None => None
  | Some sz =>
      match mapAccumM (assignOffsets fp)
              (cursor + getULEB128Size (getAbbrevNumber d) + sz)
              (children d) with
      | None => None
      | Some (cs, cursor') =>
          Some (mkDIE (getAddr d) (getTag d) (ForceChildren d) (values d) cs
                      cursor (getAbbrevNumber d),
                if hasChildren d then cursor' + 1 else cursor')
      end
  end.

(** Every reference of the tree designates an entry of the tree. *)
Definition references_resolve (root : DIE) : bool :=
  forallb (fun d =>
    forallb (fun V =>
      match getType V with
      | isEntry a => bool_decide (is_Some (getEntry root a))
      | _ => true
      end) (values d)) (preorder root).

(** Modelled from the spec: pass 3 of the missing
    [DIE::computeOffsetsAndAbbrevs], the reference backpatch.  The value
    emitted for a reference is the offset of its target, so every target
    has to be an entry of the tree (DanglingReference otherwise). *)
Definition backpatch (root : DIE) : option DIE :=
  if references_resolve root then Some root else None.

(** Modelled from the spec: the finalize call, LLVM's
    [DIE::computeOffsetsAndAbbrevs] (not in this repository), on the root
    of a finished tree, with the abbreviation table to use and the base
    offset.  The result is the resolved tree, or nothing on a resolution
    failure. *)
Definition computeOffsetsAndAbbrevs (fp : FormParams) (S : DIEAbbrevSet)
    (base : N) (root : DIE) : option DIE :=
  match assignOffsets fp base (assignAbbrevs S root).1 with
  | None => None
  | Some (r, _) => backpatch r
  end.

(* ===================================================================== *)
(** * The dump writer: printDIE (main_simple.cpp, lines 47-102)           *)
(* ===================================================================== *)

(** The name tables of LLVM's [llvm/BinaryFormat/Dwarf.h], which are not
    part of this repository: [printDIE] is parametric in them. *)
Class DwarfStrings : Type := {
  TagString : Tag -> string;
  AttributeString : Attribute -> string;
  AttributeEncodingString : N -> string;
  FormEncodingString : Form -> string
}.

(** One hexadecimal digit, lower case. *)
Definition hex_digit (d : N) : ascii :=
  match d with
  | 0 => "0" | 1 => "1" | 2 => "2" | 3 => "3" | 4 => "4" | 5 => "5"
  | 6 => "6" | 7 => "7" | 8 => "8" | 9 => "9" | 10 => "a" | 11 => "b"
  | 12 => "c" | 13 => "d" | 14 => "e" | _ => "f"
  end%char.

(** The [w] lowest hexadecimal digits of [v], most significant first. *)
Fixpoint hex_fixed (w : nat) (v : N) : string :=
  match w with
  | O => EmptyString
  | S w' => hex_fixed w' (v / 16) +:+ String (hex_digit (v mod 16)) EmptyString
  end.

(** Leading zeros removed, the last digit kept. *)
Fixpoint skip_zeros (s : string) : string :=
  match s with
  | String c (String _ _ as s') =>
      if decide (c = "0"%char) then skip_zeros s' else s
  | _ => s
  end.

(** [format("%08x", v)]: the conversion reads an [unsigned int], that is
    the low 32 bits of its argument, and prints eight digits. *)
Definition format_08x (v : N) : string := hex_fixed 8 (uint32 v).

(** [format("%x", v)]: the low 32 bits of the argument, without padding. *)
Definition format_x (v : N) : string := skip_zeros (hex_fixed 8 (uint32 v)).

(** [OS << s] on a [raw_ostream]: the stream is the text written so far. *)
Local Notation "os << s" := (String.append os s)
  (at level 50, left associativity).

Section Dump.
Context `{DwarfStrings}.

(** The body of the attribute loop (lines 63-92) for one attribute [V].
    [root] is the tree the entries live in: the reference held by a
    [DIEEntry] value is followed there.  A reference always designates a
    live entry; one that is not part of [root] was never laid out and
    still has offset 0. *)
Definition printValue (root : DIE) (stringPool : SimpleStringPool)
    (indentStr : string) (OS : string) (V : DIEValue) : string :=
  let OS := OS << indentStr << "  " << AttributeString (getAttribute V) << " = " in
  let OS :=
    match getType V with
    | isInteger val =>
        if decide (getForm V = DW_FORM_strp) then
          let str := getStringAt stringPool (uint32 val) in
          OS << dquote << str << dquote << " (strp offset: 0x"
             << format_08x val << ")"
        else if decide (getAttribute V = DW_AT_encoding) then
          OS << AttributeEncodingString (uint32 val)
        else
          OS << "0x" << format_x val
    | isEntry a =>
        let refDie := getEntry root a in
        OS << "{0x" << format_08x (from_option getOffset 0 refDie) << "}"
    | isOther =>
        OS << "<unknown type>"
    end in
  OS << " [" << FormEncodingString (getForm V) << "]" << nl.

(** [void printDIE(raw_ostream &OS, DIE &die, SimpleStringPool &stringPool,
    int indent = 0)]: the stream after the call.  The indent is 0 at the
    root and grows by 2 per level, so it is a natural number. *)
Fixpoint printDIE (root : DIE) (stringPool : SimpleStringPool)
    (OS : string) (die : DIE) (indent : nat) {struct die} : string :=
  let indentStr := str_make indent " "%char in
  let OS := OS << indentStr << "0x" << format_08x (getOffset die) << ": " in
  let OS := OS << TagString (getTag die) in
  let OS := OS << " [" << pretty (getAbbrevNumber die) << "]" in
  let OS := if hasChildren die then OS << " *" << nl else OS << nl in
  let OS := fold_left (printValue root stringPool indentStr) (values die) OS in
  let OS := fold_left
              (fun OS child => printDIE root stringPool OS child (indent + 2))
              (children die) OS in
  if hasChildren die then OS << indentStr << "NULL" << nl else OS.

(** ** The dump, line by line *)

(** The text of a list of lines, each followed by a line feed. *)
Definition unlines (ls : list string) : string :=
  fold_right (fun l acc => l +:+ nl +:+ acc) EmptyString ls.

(** The decoded value of an attribute. *)
Definition decoded_value (root : DIE) (stringPool : SimpleStringPool)
    (V : DIEValue) : string :=
  match getType V with
  | isInteger val =>
      if decide (getForm V = DW_FORM_strp) then
        dquote +:+ getStringAt stringPool (uint32 val) +:+ dquote
          +:+ " (strp offset: 0x" +:+ format_08x val +:+ ")"
      else if decide (getAttribute V = DW_AT_encoding) then
        AttributeEncodingString (uint32 val)
      else "0x" +:+ format_x val
  | isEntry a =>
      "{0x" +:+ format_08x (from_option getOffset 0 (getEntry root a)) +:+ "}"
  | isOther => "<unknown type>"
  end.

(** The header line of an entry: offset, tag name, abbreviation id, and a
    star when the entry has children. *)
Definition header_line (die : DIE) (indent : nat) : string :=
  str_make indent " "%char +:+ "0x" +:+ format_08x (getOffset die) +:+ ": "
    +:+ TagString (getTag die)
    +:+ " [" +:+ pretty (getAbbrevNumber die) +:+ "]"
    +:+ (if hasChildren die then " *" else EmptyString).

(** The line of one attribute: name, decoded value, form name. *)
Definition attribute_line (root : DIE) (stringPool : SimpleStringPool)
    (indent : nat) (V : DIEValue) : string :=
  str_make indent " "%char +:+ "  " +:+ AttributeString (getAttribute V)
    +:+ " = " +:+ decoded_value root stringPool V
    +:+ " [" +:+ FormEncodingString (getForm V) +:+ "]".

(** The closing marker line of an entry. *)
Definition closing_line (indent : nat) : string :=
  str_make indent " "%char +:+ "NULL".

(** The lines of the dump of an entry: the header line, one line per
    attribute, the lines of each child at indent plus two, and the closing
    marker if the entry has children. *)
Fixpoint dump_lines (root : DIE) (stringPool : SimpleStringPool)
    (die : DIE) (indent : nat) {struct die} : list string :=
  header_line die indent
    :: map (attribute_line root stringPool indent) (values die)
    ++ flat_map (fun child => dump_lines root stringPool child (indent + 2))
                (children die)
    ++ (if hasChildren die then [closing_line indent] else []).

End Dump.

(* ===================================================================== *)
(** * The debug_line filter of main.cpp (lines 220-241)                   *)
(* ===================================================================== *)

(** The lines successive calls of [std::getline(iss, line)] produce for the
    text [s], until the call fails: a line ends at a line feed, which is
    not part of it; text after the last line feed is a last line. *)
Fixpoint getlines (s : string) : list string :=
  match s with
  | EmptyString => []
  | String c s' =>
      if decide (c = ascii_of_nat 10) then EmptyString :: getlines s'
      else match getlines s' with
           | [] => [String c EmptyString]
           | l :: ls => String c l :: ls
           end
  end.

(** [line.find(needle) != std::string::npos]. *)
Definition contains (needle line : string) : bool :=
  bool_decide (is_Some (String.index 0 needle line)).

(** One turn of the [while] loop (lines 227-241).  The state is the flag
    [inDebugLine] and the text written to [dumpFile] so far. *)
Definition filter_step (st : bool * string) (line : string) : bool * string :=
  let '(inDebugLine, dumpFile) := st in
  if contains ".debug_line contents:" line then
    (true, dumpFile)
  else
    let inDebugLine :=
      if inDebugLine && contains ".debug_" line && contains "contents:" line
      then false else inDebugLine in
    if negb inDebugLine then (inDebugLine, dumpFile << line << nl)
    else (inDebugLine, dumpFile).

(** The whole loop over [tempOutput]: what [debug.txt] holds at the end. *)
Definition filter_debug_line (tempOutput : string) : string :=
  (fold_left filter_step (getlines tempOutput) (false, EmptyString)).2.

(** ** What the filter is meant to do *)

(** The header line of the line-number section. *)
Definition is_debug_line_header (line : string) : bool :=
  contains ".debug_line contents:" line.

(** The header line of any section. *)
Definition is_section_header (line : string) : bool :=
  contains ".debug_" line && contains "contents:" line.

(** Line [i] lies in a line-number section: some line [j <= i] is a header
    of the line-number section, and no line after [j] up to [i] is a
    section header. *)
Definition in_debug_line (lines : list string) (i : nat) : Prop :=
  exists j, (j <= i)%nat /\
    is_debug_line_header (nth j lines EmptyString) = true /\
    forall k, (j < k <= i)%nat ->
      is_section_header (nth k lines EmptyString) = false.

(** The same, as a test. *)
Definition omitted (lines : list string) (i : nat) : bool :=
  existsb (fun j =>
    is_debug_line_header (nth j lines EmptyString) &&
    forallb (fun k => negb (is_section_header (nth k lines EmptyString)))
            (seq (S j) (i - j)))
    (seq 0 (S i)).

(** The lines that are not omitted, in order. *)
Definition kept_lines (lines : list string) : list string :=
  flat_map (fun i => if omitted lines i then []
                     else [nth i lines EmptyString])
           (seq 0 (length lines)).

(* ===================================================================== *)
(** * The program of main_simple.cpp                                      *)
(* ===================================================================== *)

(** The names LLVM's tables give to the codes [main] uses; an unknown code
    has the empty name. *)
Definition main_TagString (t : Tag) : string :=
  if decide (t = DW_TAG_compile_unit) then "DW_TAG_compile_unit"
  else if decide (t = DW_TAG_base_type) then "DW_TAG_base_type"
  else if decide (t = DW_TAG_pointer_type) then "DW_TAG_pointer_type"
  else if decide (t = DW_TAG_structure_type) then "DW_TAG_structure_type"
  else if decide (t = DW_TAG_member) then "DW_TAG_member"
  else EmptyString.

Definition main_AttributeString (a : Attribute) : string :=
  if decide (a = DW_AT_producer) then "DW_AT_producer"
  else if decide (a = DW_AT_language) then "DW_AT_language"
  else if decide (a = DW_AT_name) then "DW_AT_name"
  else if decide (a = DW_AT_encoding) then "DW_AT_encoding"
  else if decide (a = DW_AT_byte_size) then "DW_AT_byte_size"
  else if decide (a = DW_AT_type) then "DW_AT_type"
  else if decide (a = DW_AT_data_member_location)
       then "DW_AT_data_member_location"
  else EmptyString.

Definition main_AttributeEncodingString (e : N) : string :=
  if decide (e = DW_ATE_signed) then "DW_ATE_signed"
  else if decide (e = DW_ATE_signed_char) then "DW_ATE_signed_char"
  else EmptyString.

Definition main_FormEncodingString (f : Form) : string :=
  if decide (f = DW_FORM_strp) then "DW_FORM_strp"
  else if decide (f = DW_FORM_data1) then "DW_FORM_data1"
  else if decide (f = DW_FORM_data2) then "DW_FORM_data2"
  else if decide (f = DW_FORM_data4) then "DW_FORM_data4"
  else if decide (f = DW_FORM_data8) then "DW_FORM_data8"
  else if decide (f = DW_FORM_ref4) then "DW_FORM_ref4"
  else if decide (f = DW_FORM_string) then "DW_FORM_string"
  else EmptyString.

Definition main_strings : DwarfStrings :=
  Build_DwarfStrings main_TagString main_AttributeString
    main_AttributeEncodingString main_FormEncodingString.

(** [DIE::get(allocator, tag)] followed by the [addValue] and [addChild]
    calls on the new entry: an entry at address [a], not laid out yet. *)
Definition newDIE (a : N) (tag : Tag) (vs : list DIEValue)
    (cs : list DIE) : DIE :=
  mkDIE a tag false vs cs 0 0.

(** The tree and the string pool [main] has built when it reaches line 166.
    The entries are numbered in the order of their creation. *)
Definition main_built : DIE * SimpleStringPool :=
  let stringPool := empty_pool in
  let '(warpo, stringPool) := add "warpo" stringPool in
  let '(int, stringPool) := add "int" stringPool in
  let intType := newDIE 1 DW_TAG_base_type
    [ mkDIEValue DW_AT_name DW_FORM_strp (isInteger int);
      mkDIEValue DW_AT_encoding DW_FORM_data1 (isInteger DW_ATE_signed);
      mkDIEValue DW_AT_byte_size DW_FORM_data1 (isInteger 4) ] [] in
  let '(char, stringPool) := add "char" stringPool in
  let charType := newDIE 2 DW_TAG_base_type
    [ mkDIEValue DW_AT_name DW_FORM_strp (isInteger char);
      mkDIEValue DW_AT_encoding DW_FORM_data1 (isInteger DW_ATE_signed_char);
      mkDIEValue DW_AT_byte_size DW_FORM_data1 (isInteger 1) ] [] in
  let charPtrType := newDIE 3 DW_TAG_pointer_type
    [ mkDIEValue DW_AT_byte_size DW_FORM_data1 (isInteger 8);
      mkDIEValue DW_AT_type DW_FORM_ref4 (isEntry 2) ] [] in
  let '(MyClass, stringPool) := add "MyClass" stringPool in
  let '(x, stringPool) := add "x" stringPool in
  let memberX := newDIE 5 DW_TAG_member
    [ mkDIEValue DW_AT_name DW_FORM_strp (isInteger x);
      mkDIEValue DW_AT_type DW_FORM_ref4 (isEntry 1);
      mkDIEValue DW_AT_data_member_location DW_FORM_data1 (isInteger 0) ] [] in
  let '(y, stringPool) := add "y" stringPool in
  let memberY := newDIE 6 DW_TAG_member
    [ mkDIEValue DW_AT_name DW_FORM_strp (isInteger y);
      mkDIEValue DW_AT_type DW_FORM_ref4 (isEntry 1);
      mkDIEValue DW_AT_data_member_location DW_FORM_data1 (isInteger 4) ] [] in
  let '(name, stringPool) := add "name" stringPool in
  let memberName := newDIE 7 DW_TAG_member
    [ mkDIEValue DW_AT_name DW_FORM_strp (isInteger name);
      mkDIEValue DW_AT_type DW_FORM_ref4 (isEntry 3);
      mkDIEValue DW_AT_data_member_location DW_FORM_data1 (isInteger 8) ] [] in
  let classType := newDIE 4 DW_TAG_structure_type
    [ mkDIEValue DW_AT_name DW_FORM_strp (isInteger MyClass);
      mkDIEValue DW_AT_byte_size DW_FORM_data1 (isInteger 24) ]
    [ memberX; memberY; memberName ] in
  let cu := newDIE 0 DW_TAG_compile_unit
    [ mkDIEValue DW_AT_producer DW_FORM_strp (isInteger warpo);
      mkDIEValue DW_AT_language DW_FORM_data2 (isInteger DW_LANG_C_plus_plus) ]
    [ intType; charType; charPtrType; classType ] in
  (cu, stringPool).

Definition main_cu : DIE := main_built.1.
Definition main_stringPool : SimpleStringPool := main_built.2.

(** [dwarf::FormParams formParams = {4, 4, dwarf::DWARF32}]. *)
Definition main_formParams : FormParams := mkFormParams 4 4 DWARF32.

(** Lines 166-168: the tree after
    [cu->computeOffsetsAndAbbrevs(formParams, abbrevSet, 11)], with a fresh
    abbreviation set whose ids start at 1. *)
Definition main_resolved : option DIE :=
  computeOffsetsAndAbbrevs main_formParams (freshAbbrevSet 1) 11 main_cu.

(** The resolved tree itself (resolution of [main_cu] succeeds). *)
Definition main_resolved_tree : DIE := default main_cu main_resolved.

(** The entry at place [i] of the traversal of [d]. *)
Definition entry_at (d : DIE) (i : nat) : DIE := nth i (preorder d) d.

(** The pool after lines 112 and 117 of [main]. *)
Definition pool_warpo_int : SimpleStringPool :=
  (add "int" (add "warpo" empty_pool).2).2.

(** An entry whose name is an inline string ([DW_FORM_string]), a value
    that is neither an integer nor an entry reference, at offset 11 with
    abbreviation id 1. *)
Definition inline_name : DIEValue :=
  mkDIEValue DW_AT_name DW_FORM_string isOther.

Definition inline_named_type : DIE :=
  mkDIE 0 DW_TAG_base_type false [inline_name] [] 11 1.

(* ===================================================================== *)
(** * Invariants used in the proofs                                       *)
(* ===================================================================== *)

(** What the abbreviation pass establishes for one entry and its table. *)
Definition abbrevs_assigned (S S' : DIEAbbrevSet) (d r : DIE) : Prop :=
  abbrevs S ⊆ abbrevs S' /\
  strip false r = strip false d /\
  getOffset r = getOffset d /\
  Forall (fun x => abbrevs S' !! shape x = Some (getAbbrevNumber x))
         (preorder r).

(** Offsets compared: the entry [x] lies before the entry [y]. *)
Definition offset_lt (x y : DIE) : Prop := getOffset x < getOffset y.

(** In every entry of a list, siblings lie in increasing order and every
    descendant lies after its ancestor. *)
Definition ordered_inside (l : list DIE) : Prop :=
  Forall (fun p => StronglySorted offset_lt (children p) /\
                   Forall (offset_lt p) (descendants p)) l.

(** The layout of one entry that occupies the bytes from [lo] up to [hi]. *)
Definition laid_out (lo hi : N) (r : DIE) : Prop :=
  getOffset r = lo /\ lo < hi /\
  Forall (fun x => lo <= getOffset x /\ getOffset x < hi) (preorder r) /\
  StronglySorted offset_lt (preorder r) /\
  ordered_inside (preorder r).

(** The layout of consecutive siblings. *)
Definition laid_out_list (lo hi : N) (rs : list DIE) : Prop :=
  lo <= hi /\
  Forall (fun x => lo <= getOffset x /\ getOffset x < hi) (flat_map preorder rs) /\
  StronglySorted offset_lt (flat_map preorder rs) /\
  StronglySorted offset_lt rs /\
  ordered_inside (flat_map preorder rs).

(** The flag after the last line of a list: whether that line is omitted. *)
Definition last_flag (l : list string) : bool :=
  match length l with
  | O => false
  | S n => omitted l n
  end.


(* ===================================================================== *)
(** * The .debug_str listing of main_simple.cpp (lines 190-197)           *)
(* ===================================================================== *)

(** The [while] loop that lists the string pool, from the [uint32_t]
    counter [offset] and the text written to [dumpFile] so far.  While
    [offset < strData.size()], a turn reads [str = getStringAt(offset)],
    writes the offset in eight hexadecimal digits and [str] between
    quotes, and advances by [offset += str.size() + 1].  [fuel] bounds the
    number of turns; the result is [None] when the loop has not ended
    within that many turns. *)
Fixpoint debug_str_loop (fuel : nat) (stringPool : SimpleStringPool)
    (offset : N) (dumpFile : string) : option string :=
  if offset <? size (getData stringPool) then
    match fuel with
    | O => None
    | S fuel' =>
        let str := getStringAt stringPool offset in
        let dumpFile :=
          dumpFile << "0x" << format_08x offset << ": " << dquote << str
                   << dquote << nl in
        debug_str_loop fuel' stringPool (uint32 (offset + (size str + 1)))
                       dumpFile
    end
  else Some dumpFile.

(** ** What the listing is meant to show *)

(** The C strings a buffer holds one after the other: the pieces between
    terminators; bytes after the last terminator are a last piece. *)
Fixpoint c_strings (s : string) : list string :=
  match s with
  | EmptyString => []
  | String c s' =>
      if decide (c = NUL) then EmptyString :: c_strings s'
      else match c_strings s' with
           | [] => [String c EmptyString]
           | l :: ls => String c l :: ls
           end
  end.

(** The line of the listing for the string [str] at [offset]. *)
Definition debug_str_line (offset : N) (str : string) : string :=
  "0x" +:+ format_08x offset +:+ ": " +:+ dquote +:+ str +:+ dquote.

(** The lines for consecutive strings, the first one at [offset]. *)
Fixpoint debug_str_lines (offset : N) (strs : list string) : list string :=
  match strs with
  | [] => []
  | s :: strs' =>
      debug_str_line offset s :: debug_str_lines (offset + (size s + 1)) strs'
  end.

(** The buffer that holds the strings [L], each with its terminator. *)
Fixpoint terminated_concat (L : list string) : string :=
  match L with
  | [] => EmptyString
  | s :: L' => s +:+ String NUL (terminated_concat L')
  end.

(** The pools reached from the empty pool by interning strings without NUL
    byte only, as [main] does. *)
Inductive reachable_no_nul : SimpleStringPool -> Prop :=
| reach_nn_empty : reachable_no_nul empty_pool
| reach_nn_add (s : string) (p : SimpleStringPool) :
    reachable_no_nul p -> no_nul s -> reachable_no_nul (add s p).2.

(** The strings of a pool in the order of their first interning, with what
    the pool records about them. *)
Definition lists_pool (L : list string) (p : SimpleStringPool) : Prop :=
  data p = terminated_concat L /\
  Forall no_nul L /\
  NoDup L /\
  (forall s, s ∈ L <-> is_Some (offsets p !! s)) /\
  (forall i s, L !! i = Some s ->
     offsets p !! s = Some (uint32 (size (terminated_concat (take i L))))).

(* ===================================================================== *)
(** * Lines and line feeds (main.cpp, lines 227 and 239)                  *)
(* ===================================================================== *)

(** A string holds no line feed. *)
Fixpoint no_newline (s : string) : Prop :=
  match s with
  | EmptyString => True
  | String c s' => c <> ascii_of_nat 10 /\ no_newline s'
  end.

(** The text is empty or its last byte is a line feed. *)
Fixpoint ends_with_newline (s : string) : bool :=
  match s with
  | EmptyString => true
  | String c EmptyString => bool_decide (c = ascii_of_nat 10)
  | String _ s' => ends_with_newline s'
  end.


(* ===================================================================== *)
(** * Facts about strings                                                 *)
(* ===================================================================== *)

Lemma str_app_cons (x : ascii) (a b : string) :
  String x a +:+ b = String x (a +:+ b).
Proof. reflexivity. Qed.

Lemma str_app_nil_l (b : string) : EmptyString +:+ b = b.
Proof. reflexivity. Qed.

Lemma str_app_assoc (a b c : string) : (a +:+ b) +:+ c = a +:+ (b +:+ c).
Proof.
  induction a as [|x a IH]; [reflexivity|].
  rewrite !str_app_cons. now rewrite IH.
Qed.

Lemma str_app_nil_r (a : string) : a +:+ EmptyString = a.
Proof.
  induction a as [|x a IH]; [reflexivity|].
  rewrite str_app_cons. now rewrite IH.
Qed.

Lemma str_length_app (a b : string) :
  String.length (a +:+ b) = (String.length a + String.length b)%nat.
Proof.
  induction a as [|x a IH]; [reflexivity|].
  rewrite str_app_cons. simpl. now rewrite IH.
Qed.

Lemma size_app (a b : string) : size (a +:+ b) = size a + size b.
Proof. unfold size. rewrite str_length_app. lia. Qed.

Lemma size_cons (c : ascii) (s : string) : size (String c s) = 1 + size s.
Proof. unfold size. simpl. lia. Qed.

Lemma str_drop_app (a b : string) : str_drop (String.length a) (a +:+ b) = b.
Proof.
  induction a as [|x a IH]; [now destruct b|].
  rewrite str_app_cons. simpl. exact IH.
Qed.

Lemma c_str_read_app (s r : string) :
  no_nul s -> c_str_read (s +:+ String NUL r) = s.
Proof.
  induction s as [|c s IH].
  - intros _. reflexivity.
  - intros [Hc Hs]. rewrite str_app_cons. simpl.
    rewrite decide_False by exact Hc. now rewrite IH.
Qed.

Lemma to_nat_size (s : string) : N.to_nat (size s) = String.length s.
Proof. unfold size. lia. Qed.

Lemma uint32_small (n : N) : n < 2 ^ 32 -> uint32 n = n.
Proof. intros H. unfold uint32. now apply N.mod_small. Qed.

Lemma no_nul_make (n : nat) (c : ascii) : c <> NUL -> no_nul (str_make n c).
Proof. intros Hc. induction n; simpl; auto. Qed.

Lemma length_make (n : nat) (c : ascii) : String.length (str_make n c) = n.
Proof. induction n; simpl; auto. Qed.

(* ===================================================================== *)
(** * Facts about the string pool                                         *)
(* ===================================================================== *)

Lemma add_found (s : string) (p : SimpleStringPool) (off : N) :
  offsets p !! s = Some off -> add s p = (off, p).
Proof. intros H. unfold add. now rewrite H. Qed.

Lemma add_fresh (s : string) (p : SimpleStringPool) :
  offsets p !! s = None ->
  add s p = (uint32 (size (data p)),
             mkPool (data p +:+ s +:+ String NUL EmptyString)
                    (<[s := uint32 (size (data p))]> (offsets p))).
Proof. intros H. unfold add. now rewrite H. Qed.

(** After [add s], the map knows [s] under the returned offset. *)
Lemma add_records (s : string) (p : SimpleStringPool) :
  offsets (add s p).2 !! s = Some (add s p).1.
Proof.
  destruct (offsets p !! s) as [off|] eqn:E.
  - rewrite (add_found _ _ _ E). exact E.
  - rewrite (add_fresh _ _ E). simpl. apply lookup_insert_eq.
Qed.

(** [add] keeps the invariant of the offsets map. *)
Lemma pool_inv_add (s : string) (p : SimpleStringPool) :
  pool_inv p -> pool_inv (add s p).2.
Proof.
  intros Hinv. destruct (offsets p !! s) as [off|] eqn:E.
  - now rewrite (add_found _ _ _ E).
  - rewrite (add_fresh _ _ E). simpl. intros s' off' Hl. simpl in Hl.
    destruct (decide (s = s')) as [->|Hne].
    + rewrite lookup_insert_eq in Hl. injection Hl as <-.
      exists (data p), EmptyString. split; reflexivity.
    + rewrite lookup_insert_ne in Hl by exact Hne.
      destruct (Hinv _ _ Hl) as (pre & post & Hd & Ho).
      exists pre, (post +:+ s +:+ String NUL EmptyString). split; [|exact Ho].
      rewrite Hd. rewrite !str_app_assoc. rewrite str_app_cons. reflexivity.
Qed.

Lemma pool_inv_reachable (p : SimpleStringPool) : reachable p -> pool_inv p.
Proof.
  induction 1 as [|s p _ IH].
  - intros s off H. simpl in H. now rewrite lookup_empty in H.
  - now apply pool_inv_add.
Qed.

(** The first byte equal to NUL ends the scan; it exists as soon as some
    byte of the string is NUL. *)
Lemma c_str_read_finds (s : string) (i : nat) :
  String.get i s = Some NUL ->
  exists n, (n < String.length s)%nat /\ String.get n s = Some NUL /\
            c_str_read s = String.substring 0 n s /\ no_nul (c_str_read s).
Proof.
  revert i. induction s as [|c s IH]; intros i Hi; [discriminate|].
  simpl. destruct (decide (c = NUL)) as [->|Hc].
  - exists 0%nat. repeat split; simpl; auto; lia.
  - destruct i as [|i]; [simpl in Hi; congruence|]. simpl in Hi.
    destruct (IH _ Hi) as (n & Hn & Hg & Hr & Hnn).
    exists (S n). repeat split; simpl; auto; try lia. now rewrite Hr.
Qed.

Lemma get_str_drop (k n : nat) (d : string) :
  String.get n (str_drop k d) = String.get (k + n) d.
Proof.
  revert d. induction k as [|k IH]; intros d; [reflexivity|].
  destruct d as [|c d]; simpl; [now destruct n | apply IH].
Qed.

Lemma substring_str_drop (k n : nat) (d : string) :
  String.substring 0 n (str_drop k d) = String.substring k n d.
Proof.
  revert d. induction k as [|k IH]; intros d; [reflexivity|].
  destruct d as [|c d]; simpl; [now destruct n | apply IH].
Qed.

Lemma length_str_drop (k : nat) (d : string) :
  String.length (str_drop k d) = (String.length d - k)%nat.
Proof.
  revert d. induction k as [|k IH]; intros d; simpl; [lia|].
  destruct d as [|c d]; simpl; [reflexivity | apply IH].
Qed.

Lemma get_app_nul (d post : string) :
  String.get (String.length d) (d +:+ String NUL post) = Some NUL.
Proof.
  induction d as [|c d IH]; [reflexivity|]. rewrite str_app_cons. exact IH.
Qed.

(** Reading at an in-bounds offset of a terminated buffer stops at a
    terminator that lies inside the buffer. *)
Lemma getStringAt_in_bounds (p : SimpleStringPool) (offset : N) :
  ends_with_nul (data p) -> offset < size (data p) ->
  exists n : N,
    offset + n < size (data p) /\
    String.get (N.to_nat (offset + n)) (data p) = Some NUL /\
    getStringAt p offset =
      String.substring (N.to_nat offset) (N.to_nat n) (data p) /\
    no_nul (getStringAt p offset).
Proof.
  intros [d Hd] Hlt. unfold getStringAt.
  destruct (N.leb_spec (size (data p)) offset) as [Hle|_]; [lia|].
  set (k := N.to_nat offset).
  assert (Hk : (k <= String.length d)%nat).
  { revert Hlt. rewrite Hd, size_app. unfold size. simpl. lia. }
  assert (Hg : String.get (String.length d - k) (str_drop k (data p)) = Some NUL).
  { rewrite get_str_drop. replace (k + (String.length d - k))%nat
      with (String.length d) by lia. rewrite Hd. apply get_app_nul. }
  destruct (c_str_read_finds _ _ Hg) as (n & Hn & Hgn & Hr & Hnn).
  rewrite length_str_drop in Hn. rewrite get_str_drop in Hgn.
  rewrite substring_str_drop in Hr.
  exists (N.of_nat n). repeat split.
  - unfold size. lia.
  - replace (N.to_nat (offset + N.of_nat n)) with (k + n)%nat by lia. exact Hgn.
  - now rewrite Nat2N.id.
  - exact Hnn.
Qed.

(** A buffer that received an append ends with the terminator. *)
Lemma reachable_terminated (p : SimpleStringPool) :
  reachable p -> data p = EmptyString \/ ends_with_nul (data p).
Proof.
  induction 1 as [|s p _ IH]; [now left|].
  destruct (offsets p !! s) as [off|] eqn:E.
  - now rewrite (add_found _ _ _ E).
  - rewrite (add_fresh _ _ E). simpl. right.
    exists (data p +:+ s). now rewrite str_app_assoc.
Qed.

(** Reading where an interned string starts gives the string back, as long
    as the start is below [2^32]. *)
Lemma getStringAt_interned (p : SimpleStringPool) (pre s post : string) :
  data p = pre +:+ s +:+ String NUL post -> no_nul s ->
  getStringAt p (size pre) = s.
Proof.
  intros Hd Hs. unfold getStringAt.
  destruct (N.leb_spec (size (data p)) (size pre)) as [Hle|_].
  - revert Hle. rewrite Hd, !size_app, size_cons. lia.
  - rewrite to_nat_size, Hd, str_drop_app. now apply c_str_read_app.
Qed.

(* ===================================================================== *)
(** * The string pool: interning and lookup                               *)
(* ===================================================================== *)

(** C4 -- Interning is idempotent.  For every string [s] and every pool,
    the second of two consecutive calls of [add s] returns the offset the
    first one returned and leaves the pool (buffer, size and map) as the
    first call left it.  The buffer grows on the first call only, and there
    exactly when [s] was not interned before, by [s] and one terminator. *)
Theorem add_twice_same_offset (s : string) (p : SimpleStringPool) :
  (add s (add s p).2).1 = (add s p).1 /\
  (add s (add s p).2).2 = (add s p).2 /\
  data (add s (add s p).2).2 = data (add s p).2 /\
  getSize (add s (add s p).2).2 = getSize (add s p).2 /\
  (offsets p !! s = None ->
     data (add s p).2 = data p +:+ s +:+ String NUL EmptyString) /\
  (is_Some (offsets p !! s) -> (add s p).2 = p).
Proof.
  rewrite (add_found _ _ _ (add_records s p)). simpl.
  repeat split; try reflexivity.
  - intros E. now rewrite (add_fresh _ _ E).
  - intros [off E]. now rewrite (add_found _ _ _ E).
Qed.

(** C5 (as amended) -- In every pool reached from the empty pool by calls
    of [add] whose buffer is shorter than [2^32] bytes, interning a string
    without NUL byte and reading at the returned offset gives the string
    back. *)
Theorem getStringAt_add_roundtrip (s : string) (p : SimpleStringPool) :
  reachable p -> size (data p) < 2 ^ 32 -> no_nul s ->
  getStringAt (add s p).2 (add s p).1 = s.
Proof.
  intros Hr Hsz Hs. destruct (offsets p !! s) as [off|] eqn:E.
  - rewrite (add_found _ _ _ E). simpl.
    destruct (pool_inv_reachable p Hr _ _ E) as (pre & post & Hd & ->).
    rewrite uint32_small.
    + now apply (getStringAt_interned p pre s post).
    + revert Hsz. rewrite Hd, size_app. lia.
  - rewrite (add_fresh _ _ E). simpl. rewrite uint32_small by exact Hsz.
    now apply (getStringAt_interned _ (data p) s EmptyString).
Qed.

(** Once the buffer holds [2^32] bytes the returned offset wraps around:
    after a first string of [n] bytes with [n + 1 = 2^32], the offset
    returned for a second string is [0], where the first string is read. *)
Lemma add_offset_wraps (n : nat) :
  N.of_nat n + 1 = 2 ^ 32 ->
  let big := str_make n "a"%char in
  let p := (add big empty_pool).2 in
  let r := add (String "b"%char EmptyString) p in
  reachable p /\ no_nul (String "b"%char EmptyString) /\
  r.1 = 0 /\ getStringAt r.2 r.1 = big /\
  big <> String "b"%char EmptyString.
Proof.
  intros Hn big p r.
  assert (Hbig : big <> String "b"%char EmptyString).
  { intros Heq. apply (f_equal String.length) in Heq.
    unfold big in Heq. rewrite length_make in Heq. simpl in Heq. subst n.
    discriminate Hn. }
  assert (Hp : p = mkPool (big +:+ String NUL EmptyString)
                          (<[big := 0]> ∅)).
  { unfold p. rewrite add_fresh by apply lookup_empty. reflexivity. }
  assert (Hsz : size (data p) = 2 ^ 32).
  { rewrite Hp. simpl. rewrite size_app, size_cons. unfold size, big.
    rewrite length_make. simpl. lia. }
  assert (Hr : r = (0, mkPool (data p +:+ String "b"%char EmptyString
                                 +:+ String NUL EmptyString)
                       (<[String "b"%char EmptyString := 0]> (offsets p)))).
  { unfold r. rewrite add_fresh.
    - rewrite Hsz. reflexivity.
    - rewrite Hp. simpl. now apply lookup_insert_None. }
  repeat split; try (intros ?; discriminate).
  - apply reach_add, reach_empty.
  - now rewrite Hr.
  - rewrite Hr. simpl.
    apply (getStringAt_interned _ EmptyString big
             (String "b"%char (String NUL EmptyString))).
    + simpl. rewrite Hp. simpl. now rewrite str_app_assoc.
    + apply no_nul_make. intros ?; discriminate.
  - exact Hbig.
Qed.

(** C5, refuted as stated ("in any pool state"): in the pool that holds one
    string of [2^32 - 1] bytes, interning "b" returns offset [0], and
    reading there gives the long string and not "b". *)
Lemma getStringAt_add_wraps_at_4GiB :
  let big := str_make (N.to_nat (2 ^ 32 - 1)) "a"%char in
  let p := (add big empty_pool).2 in
  let r := add (String "b"%char EmptyString) p in
  reachable p /\ no_nul (String "b"%char EmptyString) /\
  r.1 = 0 /\ getStringAt r.2 r.1 = big /\
  big <> String "b"%char EmptyString.
Proof.
  apply (add_offset_wraps (N.to_nat (2 ^ 32 - 1))).
  rewrite N2Nat.id. reflexivity.
Qed.

(** Past the end of the buffer [getStringAt] reads nothing. *)
Lemma getStringAt_past_end (p : SimpleStringPool) (offset : N) :
  size (data p) <= offset -> getStringAt p offset = EmptyString.
Proof.
  intros H. unfold getStringAt.
  destruct (N.leb_spec (size (data p)) offset) as [_|Hlt]; [reflexivity | lia].
Qed.

(** C10 -- Every append adds the string and exactly one terminator, so the
    buffer of a reachable pool, once something was appended, ends with a
    terminator; reading at an in-bounds offset finds a terminator inside
    the buffer and returns the NUL-free bytes before it; the offset equal
    to the size of the buffer is out of bounds and reads as the empty
    string. *)
Theorem pool_buffer_terminated (p : SimpleStringPool) :
  reachable p ->
  (forall s, offsets p !! s = None ->
     data (add s p).2 = data p +:+ s +:+ String NUL EmptyString /\
     ends_with_nul (data (add s p).2)) /\
  (data p = EmptyString \/ ends_with_nul (data p)) /\
  (forall offset, offset < size (data p) ->
     exists n : N,
       offset + n < size (data p) /\
       String.get (N.to_nat (offset + n)) (data p) = Some NUL /\
       getStringAt p offset =
         String.substring (N.to_nat offset) (N.to_nat n) (data p) /\
       no_nul (getStringAt p offset)) /\
  getStringAt p (size (data p)) = EmptyString.
Proof.
  intros Hr. repeat split.
  - now rewrite (add_fresh _ _ H).
  - rewrite (add_fresh _ _ H). simpl.
    exists (data p +:+ s). now rewrite str_app_assoc.
  - now apply reachable_terminated.
  - intros offset Hlt. apply getStringAt_in_bounds; [|exact Hlt].
    destruct (reachable_terminated p Hr) as [He|He]; [|exact He].
    rewrite He in Hlt. unfold size in Hlt. simpl in Hlt. lia.
  - apply getStringAt_past_end. lia.
Qed.

(* ===================================================================== *)
(** * Facts about entries and their traversal                             *)
(* ===================================================================== *)

(** Induction over an entry with the induction hypothesis for all of its
    children. *)
Lemma DIE_ind' (P : DIE -> Prop) :
  (forall a t f vs cs o n, Forall P cs -> P (mkDIE a t f vs cs o n)) ->
  forall d, P d.
Proof.
  intros Hstep. fix IH 1. intros [a t f vs cs o n]. apply Hstep.
  induction cs as [|c cs IHcs]; constructor; [apply IH | exact IHcs].
Qed.

Lemma preorder_eq (d : DIE) : preorder d = d :: descendants d.
Proof. now destruct d. Qed.

Lemma flat_map_map {A B C : Type} (f : A -> B) (g : B -> list C)
    (l : list A) :
  flat_map g (map f l) = flat_map (fun x => g (f x)) l.
Proof. induction l as [|x l IH]; simpl; [reflexivity | now rewrite IH]. Qed.

Lemma flat_map_Forall_ext {A B : Type} (f g : A -> list B) (l : list A) :
  Forall (fun x => f x = g x) l -> flat_map f l = flat_map g l.
Proof. induction 1 as [|x l Hx _ IH]; simpl; [reflexivity | now rewrite Hx, IH]. Qed.

Lemma map_flat_map {A B C : Type} (f : B -> C) (g : A -> list B)
    (l : list A) :
  map f (flat_map g l) = flat_map (fun x => map f (g x)) l.
Proof.
  induction l as [|x l IH]; simpl; [reflexivity|].
  now rewrite map_app, IH.
Qed.

Lemma hasChildren_map (f : DIE -> DIE) (a t : N) (fc : bool)
    (vs : list DIEValue) (cs : list DIE) (o n o' n' : N) :
  hasChildren (mkDIE a t fc vs (map f cs) o n) =
  hasChildren (mkDIE a t fc vs cs o' n').
Proof. unfold hasChildren. simpl. now destruct cs. Qed.

(** If two child lists agree after stripping, one is empty exactly when
    the other is. *)
Lemma hasChildren_strip_eq (b : bool) (a t : N) (fc : bool)
    (vs : list DIEValue) (cs cs' : list DIE) (o n o' n' : N) :
  map (strip b) cs = map (strip b) cs' ->
  hasChildren (mkDIE a t fc vs cs o n) =
  hasChildren (mkDIE a t fc vs cs' o' n').
Proof.
  intros Heq. unfold hasChildren. simpl.
  destruct cs, cs'; simpl in *; try reflexivity; discriminate.
Qed.

Lemma strip_eq (b : bool) (d : DIE) :
  strip b d =
  mkDIE (getAddr d) (getTag d) (ForceChildren d) (values d)
        (map (strip b) (children d)) 0
        (if b then getAbbrevNumber d else 0).
Proof. now destruct d. Qed.

Lemma shape_strip (b : bool) (d : DIE) : shape (strip b d) = shape d.
Proof.
  destruct d as [a t f vs cs o n]. rewrite strip_eq. unfold shape. simpl.
  now rewrite (hasChildren_map (strip b) a t f vs cs _ _ o n).
Qed.

Lemma hasChildren_strip (b : bool) (d : DIE) :
  hasChildren (strip b d) = hasChildren d.
Proof.
  destruct d as [a t f vs cs o n]. rewrite strip_eq. simpl.
  apply hasChildren_map.
Qed.

Lemma getAbbrevNumber_strip (d : DIE) :
  getAbbrevNumber (strip true d) = getAbbrevNumber d.
Proof. now destruct d. Qed.

Lemma preorder_strip (b : bool) (d : DIE) :
  preorder (strip b d) = map (strip b) (preorder d).
Proof.
  induction d as [a t f vs cs o n IH] using DIE_ind'.
  rewrite strip_eq. simpl. f_equal.
  rewrite flat_map_map, map_flat_map. now apply flat_map_Forall_ext.
Qed.

Lemma strip_false_true (d : DIE) : strip false (strip true d) = strip false d.
Proof.
  induction d as [a t f vs cs o n IH] using DIE_ind'.
  rewrite !strip_eq. simpl. f_equal. rewrite map_map.
  induction IH as [|c cs Hc _ IHcs]; simpl; [reflexivity | now rewrite Hc, IHcs].
Qed.

Lemma strip_true_false (d d' : DIE) :
  strip true d = strip true d' -> strip false d = strip false d'.
Proof. intros Heq. now rewrite <- (strip_false_true d), Heq, strip_false_true. Qed.

(** Entries at the same place of two trees that agree after stripping. *)
Lemma strip_lookup (b : bool) (R T : DIE) (i : nat) (a : DIE) :
  strip b R = strip b T -> preorder T !! i = Some a ->
  exists a', preorder R !! i = Some a' /\ strip b a' = strip b a.
Proof.
  intros Heq Hi.
  assert (Hm : map (strip b) (preorder R) !! i = Some (strip b a)).
  { rewrite <- preorder_strip, Heq, preorder_strip.
    change (map (strip b) (preorder T)) with (strip b <$> preorder T).
    now rewrite list_lookup_fmap, Hi. }
  change (map (strip b) (preorder R)) with (strip b <$> preorder R) in Hm.
  rewrite list_lookup_fmap in Hm.
  destruct (preorder R !! i) as [a'|]; [|discriminate].
  exists a'. split; [reflexivity|]. now injection Hm.
Qed.

(* ===================================================================== *)
(** * Facts about the abbreviation pass                                   *)
(* ===================================================================== *)

Lemma assignAbbrevs_eq (S : DIEAbbrevSet) (d : DIE) :
  assignAbbrevs S d =
  let '(id, S1) := canonicalize S d in
  let '(cs, S2) := mapAccum assignAbbrevs S1 (children d) in
  (mkDIE (getAddr d) (getTag d) (ForceChildren d) (values d) cs
         (getOffset d) id, S2).
Proof. now destruct d. Qed.

Lemma mapAccum_cons {S A B : Type} (f : S -> A -> B * S) (s : S) (x : A)
    (l : list A) :
  mapAccum f s (x :: l) =
  let '(y, s1) := f s x in
  let '(ys, s2) := mapAccum f s1 l in (y :: ys, s2).
Proof. reflexivity. Qed.

(** The table only grows, and after [canonicalize] it maps the shape of the
    entry to the id returned. *)
Lemma canonicalize_spec (S : DIEAbbrevSet) (d : DIE) :
  abbrevs S ⊆ abbrevs (canonicalize S d).2 /\
  abbrevs (canonicalize S d).2 !! shape d = Some (canonicalize S d).1.
Proof.
  unfold canonicalize. destruct (abbrevs S !! shape d) as [id|] eqn:E; simpl.
  - split; [reflexivity | exact E].
  - split; [now apply insert_subseteq | apply lookup_insert_eq].
Qed.

Lemma mapAccum_assignAbbrevs (cs : list DIE) :
  Forall (fun c => forall S,
            abbrevs_assigned S (assignAbbrevs S c).2 c (assignAbbrevs S c).1) cs ->
  forall S,
    abbrevs S ⊆ abbrevs (mapAccum assignAbbrevs S cs).2 /\
    map (strip false) (mapAccum assignAbbrevs S cs).1 = map (strip false) cs /\
    Forall (fun x => abbrevs (mapAccum assignAbbrevs S cs).2 !! shape x
                     = Some (getAbbrevNumber x))
           (flat_map preorder (mapAccum assignAbbrevs S cs).1).
Proof.
  induction 1 as [|c cs Hc _ IH]; intros S.
  - simpl. repeat split; [reflexivity | constructor].
  - rewrite mapAccum_cons. specialize (Hc S).
    destruct (assignAbbrevs S c) as [c' S1] eqn:E1. simpl in Hc.
    specialize (IH S1).
    destruct (mapAccum assignAbbrevs S1 cs) as [cs' S2] eqn:E2. simpl in *.
    destruct Hc as (Hsub1 & Hstrip1 & _ & Hall1).
    destruct IH as (Hsub2 & Hstrip2 & Hall2).
    repeat split.
    + now transitivity (abbrevs S1).
    + now rewrite Hstrip1, Hstrip2.
    + apply Forall_app. split; [|exact Hall2].
      eapply Forall_impl; [exact Hall1|]. simpl. intros x Hx.
      eapply lookup_weaken; eassumption.
Qed.

Lemma assignAbbrevs_spec (d : DIE) (S : DIEAbbrevSet) :
  abbrevs_assigned S (assignAbbrevs S d).2 d (assignAbbrevs S d).1.
Proof.
  revert S. induction d as [a t f vs cs o n IH] using DIE_ind'. intros S.
  rewrite assignAbbrevs_eq.
  destruct (canonicalize_spec S (mkDIE a t f vs cs o n)) as [Hsub Hid].
  destruct (canonicalize S (mkDIE a t f vs cs o n)) as [id S1]. simpl in *.
  destruct (mapAccum_assignAbbrevs cs IH S1) as (Hsub2 & Hstrip & Hall).
  destruct (mapAccum assignAbbrevs S1 cs) as [cs' S2]. simpl in *.
  repeat split.
  - now transitivity (abbrevs S1).
  - rewrite !strip_eq. simpl. now rewrite Hstrip.
  - constructor; [|exact Hall]. simpl.
    replace (shape (mkDIE a t f vs cs' o id))
      with (shape (mkDIE a t f vs cs o n)).
    + eapply lookup_weaken; eassumption.
    + unfold shape. simpl. f_equal. f_equal. symmetry.
      now apply (hasChildren_strip_eq false).
Qed.

(* ===================================================================== *)
(** * Facts about the offset pass                                         *)
(* ===================================================================== *)

Lemma assignOffsets_eq (fp : FormParams) (cursor : N) (d : DIE) :
  assignOffsets fp cursor d =
  match valuesSize fp (values d) with
  | None => None
  | Some sz =>
      match mapAccumM (assignOffsets fp)
              (cursor + getULEB128Size (getAbbrevNumber d) + sz)
              (children d) with
      | None => None
      | Some (cs, cursor') =>
          Some (mkDIE (getAddr d) (getTag d) (ForceChildren d) (values d) cs
                      cursor (getAbbrevNumber d),
                if hasChildren d then cursor' + 1 else cursor')
      end
  end.
Proof. now destruct d. Qed.

Lemma mapAccumM_cons {S A B : Type} (f : S -> A -> option (B * S)) (s : S)
    (x : A) (l : list A) :
  mapAccumM f s (x :: l) =
  match f s x with
  | None => None
  | Some (y, s1) =>
      match mapAccumM f s1 l with
      | None => None
      | Some (ys, s2) => Some (y :: ys, s2)
      end
  end.
Proof. reflexivity. Qed.

Lemma getULEB128Size_pos (n : N) : 1 <= getULEB128Size n.
Proof. unfold getULEB128Size. apply N.le_add_r. Qed.

Lemma Forall_bounds_weaken (lo hi lo' hi' : N) (l : list DIE) :
  lo' <= lo -> hi <= hi' ->
  Forall (fun x => lo <= getOffset x /\ getOffset x < hi) l ->
  Forall (fun x => lo' <= getOffset x /\ getOffset x < hi') l.
Proof.
  intros Hlo Hhi H. eapply Forall_impl; [exact H|].
  simpl. intros x [H1 H2]. split; lia.
Qed.

Lemma roots_in_flat_preorder (rs : list DIE) (P : DIE -> Prop) :
  Forall P (flat_map preorder rs) -> Forall P rs.
Proof.
  induction rs as [|r rs IH]; simpl; [constructor|].
  rewrite preorder_eq. simpl. intros H. inversion H as [|? ? Hr Hrest]; subst.
  apply Forall_app in Hrest as [_ Hrest]. constructor; [exact Hr | now apply IH].
Qed.

Lemma mapAccumM_assignOffsets (fp : FormParams) (cs : list DIE) :
  Forall (fun c => forall cursor r cursor',
            assignOffsets fp cursor c = Some (r, cursor') ->
            laid_out cursor cursor' r /\ strip true r = strip true c) cs ->
  forall cursor rs cursor',
    mapAccumM (assignOffsets fp) cursor cs = Some (rs, cursor') ->
    laid_out_list cursor cursor' rs /\
    map (strip true) rs = map (strip true) cs.
Proof.
  induction 1 as [|c cs Hc _ IH]; intros cursor rs cursor' Hrun.
  - simpl in Hrun. injection Hrun as <- <-.
    repeat split; simpl; try constructor. lia.
  - rewrite mapAccumM_cons in Hrun.
    destruct (assignOffsets fp cursor c) as [[r mid]|] eqn:E1; [|discriminate].
    destruct (mapAccumM (assignOffsets fp) mid cs) as [[rs' hi]|] eqn:E2;
      [|discriminate].
    injection Hrun as <- <-.
    destruct (Hc _ _ _ E1) as [(Hoff & Hlt & Hb & Hs & Hin) Hstrip].
    destruct (IH _ _ _ E2) as [(Hle & Hbs & Hss & Hsr & Hins) Hstrips].
    split; [|simpl; now rewrite Hstrip, Hstrips].
    repeat split.
    + lia.
    + simpl. apply Forall_app. split.
      * eapply Forall_bounds_weaken; [| |exact Hb]; lia.
      * eapply Forall_bounds_weaken; [| |exact Hbs]; lia.
    + simpl. apply StronglySorted_app. repeat split; [|exact Hs|exact Hss].
      intros x y Hx Hy. unfold offset_lt.
      rewrite Forall_forall in Hb, Hbs.
      destruct (Hb _ Hx), (Hbs _ Hy). lia.
    + constructor; [exact Hsr|].
      apply roots_in_flat_preorder in Hbs.
      eapply Forall_impl; [exact Hbs|]. simpl. intros y [Hy _].
      unfold offset_lt. lia.
    + simpl. apply Forall_app. now split.
Qed.

(** The offset pass lays an entry out at the cursor, in increasing offsets,
    and changes nothing but the offsets. *)
Lemma assignOffsets_spec (fp : FormParams) (d : DIE) :
  forall cursor r cursor',
    assignOffsets fp cursor d = Some (r, cursor') ->
    laid_out cursor cursor' r /\ strip true r = strip true d.
Proof.
  induction d as [a t f vs cs o n IH] using DIE_ind'.
  intros cursor r cursor' Hrun. rewrite assignOffsets_eq in Hrun. simpl in Hrun.
  destruct (valuesSize fp vs) as [sz|]; [|discriminate].
  destruct (mapAccumM (assignOffsets fp) (cursor + getULEB128Size n + sz) cs)
    as [[rs hi]|] eqn:E; [|discriminate].
  injection Hrun as <- <-.
  destruct (mapAccumM_assignOffsets fp cs IH _ _ _ E)
    as [(Hle & Hbs & Hss & Hsr & Hins) Hstrips].
  pose proof (getULEB128Size_pos n) as Hpos.
  assert (Hhi : hi <= (if hasChildren (mkDIE a t f vs cs o n)
                       then hi + 1 else hi)).
  { destruct (hasChildren _); lia. }
  split; [|rewrite !strip_eq; simpl; now rewrite Hstrips].
  assert (Hdesc : Forall (offset_lt (mkDIE a t f vs rs cursor n))
                         (flat_map preorder rs)).
  { eapply Forall_impl; [exact Hbs|]. simpl. intros y [Hy _].
    unfold offset_lt. simpl. lia. }
  repeat split.
  - lia.
  - simpl. constructor; [simpl; lia|].
    eapply Forall_bounds_weaken; [| |exact Hbs]; lia.
  - simpl. constructor; [exact Hss | exact Hdesc].
  - simpl. constructor; [|exact Hins]. simpl. split; [exact Hsr | exact Hdesc].
Qed.

Lemma backpatch_eq (r R : DIE) : backpatch r = Some R -> R = r.
Proof. unfold backpatch. destruct (references_resolve r); congruence. Qed.

(** A successful resolution, taken apart: the table after the abbreviation
    pass, and what the passes established. *)
Lemma computeOffsetsAndAbbrevs_spec (fp : FormParams) (S : DIEAbbrevSet)
    (base : N) (T R : DIE) :
  computeOffsetsAndAbbrevs fp S base T = Some R ->
  exists (S' : DIEAbbrevSet) (hi : N),
    abbrevs S ⊆ abbrevs S' /\
    strip false R = strip false T /\
    Forall (fun x => abbrevs S' !! shape x = Some (getAbbrevNumber x))
           (preorder R) /\
    laid_out base hi R /\
    references_resolve R = true.
Proof.
  unfold computeOffsetsAndAbbrevs. intros Hrun.
  destruct (assignAbbrevs_spec T S) as (Hsub & Hstrip & _ & Hall).
  destruct (assignAbbrevs S T) as [r1 S']. simpl in *.
  destruct (assignOffsets fp base r1) as [[r2 hi]|] eqn:E; [|discriminate].
  apply backpatch_eq in Hrun as Heq. subst R.
  destruct (assignOffsets_spec fp r1 _ _ _ E) as [Hlaid Hstrip2].
  exists S', hi. repeat split; try apply Hlaid; try assumption.
  - rewrite <- Hstrip. now apply strip_true_false.
  - (* abbreviation numbers and shapes survive the offset pass *)
    assert (Hm : map (fun x => (shape x, getAbbrevNumber x)) (preorder r2)
               = map (fun x => (shape x, getAbbrevNumber x)) (preorder r1)).
    { transitivity (map (fun x => (shape x, getAbbrevNumber x))
                        (preorder (strip true r2))).
      - rewrite preorder_strip, map_map. apply map_ext. intros x.
        f_equal; symmetry; [apply shape_strip | apply getAbbrevNumber_strip].
      - rewrite Hstrip2, preorder_strip, map_map. apply map_ext. intros x.
        f_equal; [apply shape_strip | apply getAbbrevNumber_strip]. }
    apply Forall_forall. intros x Hx.
    assert (Hx' : (shape x, getAbbrevNumber x)
                  ∈ map (fun x => (shape x, getAbbrevNumber x)) (preorder r1)).
    { rewrite <- Hm. apply list_elem_of_fmap. now exists x. }
    apply list_elem_of_fmap in Hx' as (y & Hy & Hyin).
    rewrite Forall_forall in Hall.
    pose proof (f_equal fst Hy) as Hs. pose proof (f_equal snd Hy) as Hn.
    simpl in Hs, Hn. rewrite Hs, Hn. now apply Hall.
  - unfold backpatch in Hrun. now destruct (references_resolve r2).
Qed.

(* ===================================================================== *)
(** * Resolution does not read the fields it assigns                      *)
(* ===================================================================== *)

Lemma canonicalize_shape (S : DIEAbbrevSet) (d d' : DIE) :
  shape d = shape d' -> canonicalize S d = canonicalize S d'.
Proof. intros Heq. unfold canonicalize. now rewrite Heq. Qed.

Lemma mapAccum_assignAbbrevs_strip (cs : list DIE) :
  Forall (fun c => forall S,
            (assignAbbrevs S (strip false c)).2 = (assignAbbrevs S c).2 /\
            strip true (assignAbbrevs S (strip false c)).1
              = strip true (assignAbbrevs S c).1) cs ->
  forall S,
    (mapAccum assignAbbrevs S (map (strip false) cs)).2
      = (mapAccum assignAbbrevs S cs).2 /\
    map (strip true) (mapAccum assignAbbrevs S (map (strip false) cs)).1
      = map (strip true) (mapAccum assignAbbrevs S cs).1.
Proof.
  induction 1 as [|c cs Hc _ IH]; intros S; [now split|].
  simpl map. rewrite !mapAccum_cons.
  destruct (Hc S) as [Ht Hr].
  destruct (assignAbbrevs S (strip false c)) as [c1 S1].
  destruct (assignAbbrevs S c) as [c2 S2]. simpl in Ht, Hr. subst S2.
  destruct (IH S1) as [Ht' Hr'].
  destruct (mapAccum assignAbbrevs S1 (map (strip false) cs)) as [cs1 S3].
  destruct (mapAccum assignAbbrevs S1 cs) as [cs2 S4]. simpl in *.
  split; [exact Ht' | now rewrite Hr, Hr'].
Qed.

(** The abbreviation pass gives the same ids and the same table whatever
    offsets and ids the entries carried before. *)
Lemma assignAbbrevs_strip (d : DIE) (S : DIEAbbrevSet) :
  (assignAbbrevs S (strip false d)).2 = (assignAbbrevs S d).2 /\
  strip true (assignAbbrevs S (strip false d)).1
    = strip true (assignAbbrevs S d).1.
Proof.
  revert S. induction d as [a t f vs cs o n IH] using DIE_ind'. intros S.
  rewrite !assignAbbrevs_eq.
  rewrite (canonicalize_shape S _ _ (shape_strip false (mkDIE a t f vs cs o n))).
  destruct (canonicalize S (mkDIE a t f vs cs o n)) as [id S1].
  rewrite strip_eq. simpl.
  destruct (mapAccum_assignAbbrevs_strip cs IH S1) as [Ht Hr].
  destruct (mapAccum assignAbbrevs S1 (map (strip false) cs)) as [cs1 S2].
  destruct (mapAccum assignAbbrevs S1 cs) as [cs2 S3]. simpl in *.
  split; [exact Ht|]. now rewrite Hr.
Qed.

Lemma mapAccumM_assignOffsets_strip (fp : FormParams) (cs : list DIE) :
  Forall (fun c => forall cursor,
            assignOffsets fp cursor (strip true c) = assignOffsets fp cursor c)
         cs ->
  forall cursor,
    mapAccumM (assignOffsets fp) cursor (map (strip true) cs)
      = mapAccumM (assignOffsets fp) cursor cs.
Proof.
  induction 1 as [|c cs Hc _ IH]; intros cursor; [reflexivity|].
  simpl map. rewrite !mapAccumM_cons, Hc.
  destruct (assignOffsets fp cursor c) as [[r mid]|]; [|reflexivity].
  now rewrite IH.
Qed.

(** The offset pass gives the same result whatever offsets the entries
    carried before. *)
Lemma assignOffsets_strip (fp : FormParams) (d : DIE) (cursor : N) :
  assignOffsets fp cursor (strip true d) = assignOffsets fp cursor d.
Proof.
  revert cursor. induction d as [a t f vs cs o n IH] using DIE_ind'.
  intros cursor. rewrite !assignOffsets_eq.
  rewrite (hasChildren_strip true). rewrite strip_eq. simpl.
  destruct (valuesSize fp vs) as [sz|]; [|reflexivity].
  now rewrite (mapAccumM_assignOffsets_strip fp cs IH).
Qed.

(** Resolution of two trees that differ in the assigned fields only. *)
Lemma computeOffsetsAndAbbrevs_strip (fp : FormParams) (S : DIEAbbrevSet)
    (base : N) (T T' : DIE) :
  strip false T' = strip false T ->
  computeOffsetsAndAbbrevs fp S base T' = computeOffsetsAndAbbrevs fp S base T.
Proof.
  intros Heq. unfold computeOffsetsAndAbbrevs.
  destruct (assignAbbrevs_strip T S) as [_ H1].
  destruct (assignAbbrevs_strip T' S) as [_ H2].
  rewrite Heq, H1 in H2.
  now rewrite <- (assignOffsets_strip fp (assignAbbrevs S T').1),
              <- (assignOffsets_strip fp (assignAbbrevs S T).1), H2.
Qed.

(* ===================================================================== *)
(** * Resolution: the claims                                              *)
(* ===================================================================== *)

(** C1 -- Abbreviation sharing.  Take two entries [a] and [b] of the tree
    passed to resolution (at places [i] and [j] of the traversal).  If they
    have the same tag, the same has-children flag and the same ordered list
    of (attributeKind, form) pairs, then the entries at these places of the
    resolved tree, which are [a] and [b] up to the assigned fields, carry
    the same abbreviation id; the attribute values and the children play no
    part. *)
Theorem same_shape_same_abbreviation (fp : FormParams) (S : DIEAbbrevSet)
    (base : N) (T R : DIE) (i j : nat) (a b : DIE) :
  computeOffsetsAndAbbrevs fp S base T = Some R ->
  preorder T !! i = Some a ->
  preorder T !! j = Some b ->
  getTag a = getTag b ->
  hasChildren a = hasChildren b ->
  map (fun V => (getAttribute V, getForm V)) (values a)
    = map (fun V => (getAttribute V, getForm V)) (values b) ->
  exists a' b',
    preorder R !! i = Some a' /\ preorder R !! j = Some b' /\
    strip false a' = strip false a /\ strip false b' = strip false b /\
    getAbbrevNumber a' = getAbbrevNumber b'.
Proof.
  intros Hrun Hi Hj Htag Hch Hattrs.
  destruct (computeOffsetsAndAbbrevs_spec _ _ _ _ _ Hrun)
    as (S' & hi & _ & Hstrip & Hall & _ & _).
  destruct (strip_lookup false R T i a Hstrip Hi) as (a' & Hi' & Ha).
  destruct (strip_lookup false R T j b Hstrip Hj) as (b' & Hj' & Hb).
  exists a', b'. repeat split; try assumption.
  assert (Hshape : shape a' = shape b').
  { rewrite <- (shape_strip false a'), <- (shape_strip false b'), Ha, Hb.
    rewrite !shape_strip. unfold shape. now rewrite Htag, Hch, Hattrs. }
  rewrite Forall_forall in Hall.
  pose proof (Hall a' (list_elem_of_lookup_2 _ _ _ Hi')) as Hna.
  pose proof (Hall b' (list_elem_of_lookup_2 _ _ _ Hj')) as Hnb.
  rewrite Hshape in Hna. congruence.
Qed.

(** C2 -- Offset monotonicity.  In a resolved tree the offsets are strictly
    increasing along the pre-order traversal; within every entry the
    offsets of the children are strictly increasing, and the offset of the
    entry is strictly less than the offset of each of its descendants. *)
Theorem offsets_strictly_increasing (fp : FormParams) (S : DIEAbbrevSet)
    (base : N) (T R : DIE) :
  computeOffsetsAndAbbrevs fp S base T = Some R ->
  StronglySorted (fun x y => getOffset x < getOffset y) (preorder R) /\
  forall p, p ∈ preorder R ->
    StronglySorted (fun x y => getOffset x < getOffset y) (children p) /\
    forall d, d ∈ descendants p -> getOffset p < getOffset d.
Proof.
  intros Hrun.
  destruct (computeOffsetsAndAbbrevs_spec _ _ _ _ _ Hrun)
    as (S' & hi & _ & _ & _ & (_ & _ & _ & Hsorted & Hinside) & _).
  split; [exact Hsorted|]. intros p Hp.
  unfold ordered_inside in Hinside. rewrite Forall_forall in Hinside.
  destruct (Hinside p Hp) as [Hsib Hdesc]. split; [exact Hsib|].
  intros d Hd. rewrite Forall_forall in Hdesc. now apply Hdesc.
Qed.

(** C8 -- Determinism.  When resolution of a tree with a fresh table
    succeeds, every other run with a fresh table of the same seed, on a
    tree that differs from the first at most in the fields resolution
    assigns, yields the same sequence of (tag, abbreviationId, offset)
    triples.  The tree the first run left behind is such a tree, and
    running resolution on it again gives it back unchanged. *)
Theorem resolution_deterministic (fp : FormParams) (seed base : N)
    (T R : DIE) :
  computeOffsetsAndAbbrevs fp (freshAbbrevSet seed) base T = Some R ->
  (forall T', strip false T' = strip false T ->
     exists R',
       computeOffsetsAndAbbrevs fp (freshAbbrevSet seed) base T' = Some R' /\
       triples R' = triples R) /\
  strip false R = strip false T /\
  computeOffsetsAndAbbrevs fp (freshAbbrevSet seed) base R = Some R.
Proof.
  intros Hrun.
  destruct (computeOffsetsAndAbbrevs_spec _ _ _ _ _ Hrun)
    as (S' & hi & _ & Hstrip & _).
  repeat split.
  - intros T' HT'. exists R. split; [|reflexivity].
    now rewrite (computeOffsetsAndAbbrevs_strip _ _ _ T T' HT').
  - exact Hstrip.
  - now rewrite (computeOffsetsAndAbbrevs_strip _ _ _ T R Hstrip).
Qed.

(* ===================================================================== *)
(** * Facts about the dump writer                                         *)
(* ===================================================================== *)

Lemma unlines_cons (l : string) (ls : list string) :
  unlines (l :: ls) = l +:+ nl +:+ unlines ls.
Proof. reflexivity. Qed.

Lemma unlines_app (a b : list string) :
  unlines (a ++ b) = unlines a +:+ unlines b.
Proof.
  induction a as [|l a IH]; [reflexivity|].
  simpl app. rewrite !unlines_cons, IH. now rewrite !str_app_assoc.
Qed.

Lemma length_hex_fixed (w : nat) (v : N) : String.length (hex_fixed w v) = w.
Proof.
  revert v. induction w as [|w IH]; intros v; [reflexivity|].
  simpl. rewrite str_length_app, IH. simpl. lia.
Qed.

Lemma length_format_08x (v : N) : String.length (format_08x v) = 8%nat.
Proof. apply length_hex_fixed. Qed.

(** The entry found at the address of an entry of the tree is that entry,
    when addresses are distinct. *)
Lemma find_by_key {A : Type} (f : A -> N) (l : list A) (y : A) :
  NoDup (map f l) -> y ∈ l ->
  List.find (fun d => bool_decide (f d = f y)) l = Some y.
Proof.
  induction l as [|x l IH]; intros Hnd Hy; [now apply elem_of_nil in Hy|].
  simpl in *. apply NoDup_cons in Hnd as [Hx Hnd].
  apply elem_of_cons in Hy as [->|Hy].
  - now rewrite bool_decide_eq_true_2.
  - rewrite bool_decide_eq_false_2; [now apply IH|].
    intros Heq. apply Hx. rewrite Heq.
    apply list_elem_of_fmap. now exists y.
Qed.

Lemma getEntry_distinct (root Y : DIE) :
  distinct_addresses root -> Y ∈ preorder root ->
  getEntry root (getAddr Y) = Some Y.
Proof. intros Hd HY. unfold getEntry. now apply find_by_key. Qed.

(** Resolution keeps the addresses of the entries. *)
Lemma distinct_addresses_resolved (fp : FormParams) (S : DIEAbbrevSet)
    (base : N) (T R : DIE) :
  computeOffsetsAndAbbrevs fp S base T = Some R ->
  distinct_addresses T -> distinct_addresses R.
Proof.
  intros Hrun. unfold distinct_addresses.
  destruct (computeOffsetsAndAbbrevs_spec _ _ _ _ _ Hrun)
    as (S' & hi & _ & Hstrip & _).
  assert (Heq : map getAddr (preorder R) = map getAddr (preorder T)).
  { transitivity (map getAddr (preorder (strip false R))).
    - rewrite preorder_strip, map_map. apply map_ext. now intros [].
    - rewrite Hstrip, preorder_strip, map_map. apply map_ext. now intros []. }
  now rewrite Heq.
Qed.

Section DumpFacts.
Context `{DwarfStrings}.

Lemma printDIE_eq (root : DIE) (stringPool : SimpleStringPool) (OS : string)
    (die : DIE) (indent : nat) :
  printDIE root stringPool OS die indent =
  let indentStr := str_make indent " "%char in
  let OS := OS << indentStr << "0x" << format_08x (getOffset die) << ": " in
  let OS := OS << TagString (getTag die) in
  let OS := OS << " [" << pretty (getAbbrevNumber die) << "]" in
  let OS := if hasChildren die then OS << " *" << nl else OS << nl in
  let OS := fold_left (printValue root stringPool indentStr) (values die) OS in
  let OS := fold_left
              (fun OS child => printDIE root stringPool OS child (indent + 2))
              (children die) OS in
  if hasChildren die then OS << indentStr << "NULL" << nl else OS.
Proof. now destruct die. Qed.

Lemma dump_lines_eq (root : DIE) (stringPool : SimpleStringPool) (die : DIE)
    (indent : nat) :
  dump_lines root stringPool die indent =
  header_line die indent
    :: map (attribute_line root stringPool indent) (values die)
    ++ flat_map (fun child => dump_lines root stringPool child (indent + 2))
                (children die)
    ++ (if hasChildren die then [closing_line indent] else []).
Proof. now destruct die. Qed.

(** One turn of the attribute loop writes the line of the attribute. *)
Lemma printValue_line (root : DIE) (stringPool : SimpleStringPool)
    (indent : nat) (OS : string) (V : DIEValue) :
  printValue root stringPool (str_make indent " "%char) OS V =
  OS +:+ attribute_line root stringPool indent V +:+ nl.
Proof.
  unfold printValue, attribute_line, decoded_value.
  destruct (getType V) as [val|a|]; repeat case_decide;
    now rewrite !str_app_assoc.
Qed.

Lemma fold_printValue (root : DIE) (stringPool : SimpleStringPool)
    (indent : nat) (vs : list DIEValue) (OS : string) :
  fold_left (printValue root stringPool (str_make indent " "%char)) vs OS =
  OS +:+ unlines (map (attribute_line root stringPool indent) vs).
Proof.
  revert OS. induction vs as [|V vs IH]; intros OS.
  - simpl. now rewrite str_app_nil_r.
  - simpl fold_left. rewrite IH, printValue_line. simpl map.
    rewrite unlines_cons. now rewrite !str_app_assoc.
Qed.

Lemma fold_printDIE (root : DIE) (stringPool : SimpleStringPool)
    (indent : nat) (cs : list DIE) :
  Forall (fun c => forall OS indent,
            printDIE root stringPool OS c indent =
            OS +:+ unlines (dump_lines root stringPool c indent)) cs ->
  forall OS,
    fold_left (fun OS child => printDIE root stringPool OS child indent) cs OS =
    OS +:+ unlines (flat_map (fun c => dump_lines root stringPool c indent) cs).
Proof.
  induction 1 as [|c cs Hc _ IH]; intros OS.
  - simpl. now rewrite str_app_nil_r.
  - simpl fold_left. rewrite IH, Hc. simpl flat_map.
    rewrite unlines_app. now rewrite !str_app_assoc.
Qed.

(** The stream after [printDIE] is the stream before it followed by the
    lines of the entry. *)
Lemma printDIE_lines (root : DIE) (stringPool : SimpleStringPool) (die : DIE) :
  forall OS indent,
    printDIE root stringPool OS die indent =
    OS +:+ unlines (dump_lines root stringPool die indent).
Proof.
  induction die as [a t f vs cs o n IH] using DIE_ind'. intros OS indent.
  rewrite printDIE_eq, dump_lines_eq. cbv zeta.
  rewrite (fold_printDIE root stringPool (indent + 2) cs IH), fold_printValue.
  rewrite unlines_cons, !unlines_app. unfold header_line, closing_line.
  destruct (hasChildren (mkDIE a t f vs cs o n)).
  - rewrite unlines_cons. simpl unlines. now rewrite !str_app_assoc.
  - simpl unlines. now rewrite !str_app_assoc, !str_app_nil_r.
Qed.

End DumpFacts.

(* ===================================================================== *)
(** * The dump writer: the claims                                         *)
(* ===================================================================== *)

Section DumpClaims.
Context `{DwarfStrings}.

(** C3 -- Reference resolution.  In a tree whose entries have distinct
    addresses (every resolved tree of such a tree is one), take an entry
    [X] with a reference attribute [V] that targets an entry [Y] of the
    same tree.  The reference leads to [Y], the value rendered in braces is
    the offset field of [Y] as resolution left it, and the line written for
    [V] shows it.  [X] and [Y] are arbitrary: [Y] may come before or after
    [X] in the traversal, or be [X] itself. *)
Theorem entry_ref_renders_target_offset (root : DIE)
    (stringPool : SimpleStringPool) (indent : nat) (OS : string)
    (X Y : DIE) (V : DIEValue) :
  distinct_addresses root ->
  X ∈ preorder root ->
  Y ∈ preorder root ->
  V ∈ values X ->
  getType V = isEntry (getAddr Y) ->
  getEntry root (getAddr Y) = Some Y /\
  decoded_value root stringPool V
    = "{0x" +:+ format_08x (getOffset Y) +:+ "}" /\
  printValue root stringPool (str_make indent " "%char) OS V
    = OS +:+ str_make indent " "%char +:+ "  "
         +:+ AttributeString (getAttribute V)
         +:+ " = " +:+ "{0x" +:+ format_08x (getOffset Y) +:+ "}"
         +:+ " [" +:+ FormEncodingString (getForm V) +:+ "]" +:+ nl.
Proof.
  intros Hd _ HY _ HV.
  pose proof (getEntry_distinct root Y Hd HY) as Hget.
  assert (Hdec : decoded_value root stringPool V
                 = "{0x" +:+ format_08x (getOffset Y) +:+ "}").
  { unfold decoded_value. now rewrite HV, Hget. }
  repeat split; [exact Hget | exact Hdec |].
  rewrite printValue_line. unfold attribute_line. rewrite Hdec.
  now rewrite !str_app_assoc.
Qed.

(** C6 -- Out-of-bounds string lookup.  For every offset at or past the
    end of the buffer [getStringAt] returns the empty string, and the line
    written for a string-pool attribute with such an offset is complete,
    with an empty string between the quotes. *)
Theorem getStringAt_out_of_bounds (p : SimpleStringPool) (offset : N) :
  size (data p) <= offset ->
  getStringAt p offset = EmptyString /\
  forall root indent OS V val,
    getType V = isInteger val -> getForm V = DW_FORM_strp ->
    uint32 val = offset ->
    printValue root p (str_make indent " "%char) OS V
      = OS +:+ str_make indent " "%char +:+ "  "
           +:+ AttributeString (getAttribute V)
           +:+ " = " +:+ dquote +:+ dquote
           +:+ " (strp offset: 0x" +:+ format_08x val +:+ ")"
           +:+ " [" +:+ FormEncodingString (getForm V) +:+ "]" +:+ nl.
Proof.
  intros Hoff. pose proof (getStringAt_past_end p offset Hoff) as Hempty.
  split; [exact Hempty|].
  intros root indent OS V val HV Hform Hval.
  rewrite printValue_line. unfold attribute_line, decoded_value.
  rewrite HV, decide_True by exact Hform. rewrite Hval, Hempty.
  rewrite str_app_nil_l. now rewrite !str_app_assoc.
Qed.

(** C7 (as amended) -- For every entry, [printDIE] appends to the stream
    exactly the lines of [dump_lines]: one header line with the offset in
    eight hexadecimal digits, the tag name and the abbreviation id; one
    line per attribute with the name of the attribute, the decoded value
    and the name of the form; the lines of each child at indent plus two;
    and the closing marker line if and only if the entry has children.
    The decoded value goes by the kind of the value first: for an integer
    it is the string-pool content when the form is the string-reference
    form, else the encoding name when the attribute is the encoding
    attribute, else hexadecimal; for an entry reference it is the target
    offset in braces; for a value of any other kind it is the placeholder
    "<unknown type>". *)
Theorem printDIE_renders_entry (root : DIE) (stringPool : SimpleStringPool)
    (OS : string) (die : DIE) (indent : nat) :
  printDIE root stringPool OS die indent
    = OS +:+ unlines (dump_lines root stringPool die indent) /\
  dump_lines root stringPool die indent
    = header_line die indent
        :: map (attribute_line root stringPool indent) (values die)
        ++ flat_map (fun child => dump_lines root stringPool child (indent + 2))
                    (children die)
        ++ (if hasChildren die then [closing_line indent] else []) /\
  header_line die indent
    = str_make indent " "%char +:+ "0x" +:+ format_08x (getOffset die)
        +:+ ": " +:+ TagString (getTag die)
        +:+ " [" +:+ pretty (getAbbrevNumber die) +:+ "]"
        +:+ (if hasChildren die then " *" else EmptyString) /\
  String.length (format_08x (getOffset die)) = 8%nat /\
  (forall V,
     attribute_line root stringPool indent V
       = str_make indent " "%char +:+ "  "
           +:+ AttributeString (getAttribute V)
           +:+ " = " +:+ decoded_value root stringPool V
           +:+ " [" +:+ FormEncodingString (getForm V) +:+ "]") /\
  (forall V,
     decoded_value root stringPool V =
     match getType V with
     | isInteger val =>
         if decide (getForm V = DW_FORM_strp) then
           dquote +:+ getStringAt stringPool (uint32 val) +:+ dquote
             +:+ " (strp offset: 0x" +:+ format_08x val +:+ ")"
         else if decide (getAttribute V = DW_AT_encoding) then
           AttributeEncodingString (uint32 val)
         else "0x" +:+ format_x val
     | isEntry a =>
         "{0x" +:+ format_08x (from_option getOffset 0 (getEntry root a))
           +:+ "}"
     | isOther => "<unknown type>"
     end).
Proof.
  split; [apply printDIE_lines|].
  split; [apply dump_lines_eq|].
  split; [reflexivity|].
  split; [apply length_format_08x|].
  split; intros V; reflexivity.
Qed.

End DumpClaims.

(* ===================================================================== *)
(** * The debug_line filter                                               *)
(* ===================================================================== *)

(** The test [omitted] decides [in_debug_line]. *)
Lemma omitted_spec (lines : list string) (i : nat) :
  omitted lines i = true <-> in_debug_line lines i.
Proof.
  unfold omitted, in_debug_line. rewrite existsb_exists. split.
  - intros (j & Hj & Hb). apply in_seq in Hj.
    apply andb_true_iff in Hb as [Hdl Hall].
    exists j. repeat split; [lia | exact Hdl |].
    intros k Hk. rewrite forallb_forall in Hall.
    apply negb_true_iff, Hall, in_seq. lia.
  - intros (j & Hj & Hdl & Hall). exists j. split; [apply in_seq; lia|].
    apply andb_true_iff. split; [exact Hdl|].
    apply forallb_forall. intros k Hk. apply in_seq in Hk.
    apply negb_true_iff, Hall. lia.
Qed.

(** Whether a line is omitted depends on the lines up to it only. *)
Lemma omitted_prefix (l : list string) (x : string) (i : nat) :
  (i < length l)%nat -> omitted (l ++ [x]) i = omitted l i.
Proof.
  intros Hi. apply eq_true_iff_eq. rewrite !omitted_spec.
  unfold in_debug_line. split; intros (j & Hj & Hdl & Hall); exists j.
  - rewrite app_nth1 in Hdl by lia. repeat split; [exact Hj | exact Hdl |].
    intros k Hk. rewrite <- (app_nth1 l [x]) by lia. now apply Hall.
  - rewrite app_nth1 by lia. repeat split; [exact Hj | exact Hdl |].
    intros k Hk. rewrite app_nth1 by lia. now apply Hall.
Qed.

(** How the flag moves over one more line. *)
Lemma omitted_snoc (l : list string) (x : string) :
  omitted (l ++ [x]) (length l) =
  is_debug_line_header x || (negb (is_section_header x) && last_flag l).
Proof.
  apply eq_true_iff_eq.
  rewrite omitted_spec, orb_true_iff, andb_true_iff, negb_true_iff.
  assert (Hx : nth (length l) (l ++ [x]) EmptyString = x).
  { rewrite app_nth2 by lia. now rewrite Nat.sub_diag. }
  unfold in_debug_line, last_flag. split.
  - intros (j & Hj & Hdl & Hall).
    destruct (decide (j = length l)) as [->|Hne].
    + left. now rewrite Hx in Hdl.
    + right. split.
      * rewrite <- Hx. apply Hall. lia.
      * destruct (length l) as [|n] eqn:En; [lia|].
        apply omitted_spec. exists j. rewrite app_nth1 in Hdl by lia.
        repeat split; [lia | exact Hdl |].
        intros k Hk. rewrite <- (app_nth1 l [x]) by lia. apply Hall. lia.
  - intros [Hdl | [Hsec Hflag]].
    + exists (length l). rewrite Hx. repeat split; [lia | exact Hdl |].
      intros k Hk. lia.
    + destruct (length l) as [|n] eqn:En; [discriminate|].
      apply omitted_spec in Hflag as (j & Hj & Hdl & Hall).
      exists j. rewrite app_nth1 by lia. repeat split; [lia | exact Hdl |].
      intros k Hk. destruct (decide (k = S n)) as [->|Hne].
      * rewrite Hx. exact Hsec.
      * rewrite app_nth1 by lia. apply Hall. lia.
Qed.

Lemma flat_map_seq_ext {A : Type} (f g : nat -> list A) (n : nat) :
  (forall i, (i < n)%nat -> f i = g i) ->
  flat_map f (seq 0 n) = flat_map g (seq 0 n).
Proof.
  intros Hext. apply flat_map_Forall_ext, Forall_forall.
  intros i Hi. apply list_elem_of_In, in_seq in Hi. apply Hext. lia.
Qed.

Lemma kept_lines_snoc (l : list string) (x : string) :
  kept_lines (l ++ [x]) =
  kept_lines l ++ (if omitted (l ++ [x]) (length l) then [] else [x]).
Proof.
  unfold kept_lines. rewrite length_app. simpl length.
  rewrite Nat.add_1_r, seq_S, flat_map_app. simpl. f_equal.
  - apply flat_map_seq_ext. intros i Hi.
    now rewrite omitted_prefix, app_nth1 by lia.
  - rewrite app_nth2 by lia. rewrite Nat.sub_diag. simpl.
    now rewrite app_nil_r.
Qed.

Lemma last_flag_snoc (l : list string) (x : string) :
  last_flag (l ++ [x]) = omitted (l ++ [x]) (length l).
Proof.
  unfold last_flag. rewrite length_app. simpl length.
  now rewrite Nat.add_1_r.
Qed.

(** The state of the loop after the lines [l]: the flag says whether the
    last line was omitted, the file holds the lines kept so far. *)
Lemma filter_loop_state (l : list string) :
  fold_left filter_step l (false, EmptyString) =
  (last_flag l, unlines (kept_lines l)).
Proof.
  induction l as [|x l IH] using rev_ind; [reflexivity|].
  rewrite fold_left_app, IH. simpl fold_left.
  rewrite last_flag_snoc, kept_lines_snoc, omitted_snoc, unlines_app.
  unfold filter_step, is_debug_line_header, is_section_header.
  destruct (contains ".debug_line contents:" x); [simpl; now rewrite str_app_nil_r|].
  destruct (last_flag l), (contains ".debug_" x), (contains "contents:" x);
    simpl; rewrite ?str_app_nil_r, ?str_app_assoc; reflexivity.
Qed.

(** C9 -- The dump step writes the lines of the full dump that do not lie
    in a line-number section, unchanged and in order, each followed by a
    line feed.  A line lies in a line-number section when it is a
    ".debug_line contents:" header or comes after one with no ".debug_"
    section header in between, itself included: so every line from such a
    header up to, but not including, the next ".debug_" section header is
    left out. *)
Theorem filter_drops_debug_line_section (tempOutput : string) :
  let lines := getlines tempOutput in
  filter_debug_line tempOutput = unlines (kept_lines lines) /\
  kept_lines lines =
    flat_map (fun i => if omitted lines i then []
                       else [nth i lines EmptyString])
             (seq 0 (length lines)) /\
  forall i,
    omitted lines i = true <->
    exists j, (j <= i)%nat /\
      contains ".debug_line contents:" (nth j lines EmptyString) = true /\
      forall k, (j < k <= i)%nat ->
        contains ".debug_" (nth k lines EmptyString)
          && contains "contents:" (nth k lines EmptyString) = false.
Proof.
  intros lines. split; [|split].
  - unfold filter_debug_line. fold lines. now rewrite filter_loop_state.
  - reflexivity.
  - intros i. apply omitted_spec.
Qed.

(* ===================================================================== *)
(** * The claims on the program of main_simple.cpp                        *)
(* ===================================================================== *)

(** Resolution of the tree of [main] succeeds. *)
Lemma main_resolution_succeeds :
  computeOffsetsAndAbbrevs main_formParams (freshAbbrevSet 1) 11 main_cu
    = Some main_resolved_tree.
Proof. vm_compute. reflexivity. Qed.

(** The layout [main] obtains: tag, abbreviation id and offset of the
    eight entries.  The two base types share id 2, the three members share
    id 5. *)
Example main_triples :
  triples main_resolved_tree =
  [ (DW_TAG_compile_unit, 1, 11); (DW_TAG_base_type, 2, 18);
    (DW_TAG_base_type, 2, 25); (DW_TAG_pointer_type, 3, 32);
    (DW_TAG_structure_type, 4, 38); (DW_TAG_member, 5, 44);
    (DW_TAG_member, 5, 54); (DW_TAG_member, 5, 64) ].
Proof. vm_compute. reflexivity. Qed.

(** The first lines of the dump [main] writes for the tree. *)
Example main_dump_head :
  take 4 (@dump_lines main_strings main_resolved_tree main_stringPool
            main_resolved_tree 0) =
  [ "0x0000000b: DW_TAG_compile_unit [1] *";
    "  DW_AT_producer = " +:+ dquote +:+ "warpo" +:+ dquote
       +:+ " (strp offset: 0x00000000) [DW_FORM_strp]";
    "  DW_AT_language = 0x4 [DW_FORM_data2]";
    "  0x00000012: DW_TAG_base_type [2]" ].
Proof. vm_compute. reflexivity. Qed.

(** C1 at the members [x] and [y] of [MyClass] (places 5 and 6 of the
    traversal): they receive one shared abbreviation id. *)
Lemma same_shape_same_abbreviation_witness :
  exists a' b',
    preorder main_resolved_tree !! 5%nat = Some a' /\
    preorder main_resolved_tree !! 6%nat = Some b' /\
    strip false a' = strip false (entry_at main_cu 5) /\
    strip false b' = strip false (entry_at main_cu 6) /\
    getAbbrevNumber a' = getAbbrevNumber b'.
Proof.
  apply (same_shape_same_abbreviation main_formParams (freshAbbrevSet 1) 11
           main_cu main_resolved_tree 5 6
           (entry_at main_cu 5) (entry_at main_cu 6)).
  - vm_compute. reflexivity.
  - vm_compute. reflexivity.
  - vm_compute. reflexivity.
  - vm_compute. reflexivity.
  - vm_compute. reflexivity.
  - vm_compute. reflexivity.
Defined.

(** C2 at the tree of [main]. *)
Lemma offsets_strictly_increasing_witness :
  StronglySorted (fun x y => getOffset x < getOffset y)
                 (preorder main_resolved_tree) /\
  forall p, p ∈ preorder main_resolved_tree ->
    StronglySorted (fun x y => getOffset x < getOffset y) (children p) /\
    forall d, d ∈ descendants p -> getOffset p < getOffset d.
Proof.
  apply (offsets_strictly_increasing main_formParams (freshAbbrevSet 1) 11
           main_cu main_resolved_tree).
  vm_compute. reflexivity.
Defined.

(** C3 at the member [name] (place 7), whose type attribute refers to the
    pointer type (place 3, offset 0x20). *)
Lemma entry_ref_renders_target_offset_witness :
  let root := main_resolved_tree in
  let X := entry_at root 7 in
  let Y := entry_at root 3 in
  let V := nth 1 (values X) inline_name in
  getEntry root (getAddr Y) = Some Y /\
  @decoded_value main_strings root main_stringPool V
    = "{0x" +:+ format_08x (getOffset Y) +:+ "}" /\
  @printValue main_strings root main_stringPool (str_make 4 " "%char)
      EmptyString V
    = EmptyString +:+ str_make 4 " "%char +:+ "  "
         +:+ main_AttributeString (getAttribute V)
         +:+ " = " +:+ "{0x" +:+ format_08x (getOffset Y) +:+ "}"
         +:+ " [" +:+ main_FormEncodingString (getForm V) +:+ "]" +:+ nl.
Proof.
  intros root X Y V.
  apply (@entry_ref_renders_target_offset main_strings root main_stringPool
           4 EmptyString X Y V).
  - unfold distinct_addresses. refine (bool_decide_unpack _ _).
    vm_compute. exact I.
  - apply (list_elem_of_lookup_2 _ 7%nat). vm_compute. reflexivity.
  - apply (list_elem_of_lookup_2 _ 3%nat). vm_compute. reflexivity.
  - apply (list_elem_of_lookup_2 _ 1%nat). vm_compute. reflexivity.
  - vm_compute. reflexivity.
Defined.

(** C5 (as amended) at the pool that holds "warpo" and "int", for a string
    that is in the pool and for one that is not. *)
Lemma getStringAt_add_roundtrip_witness :
  getStringAt (add "int" pool_warpo_int).2 (add "int" pool_warpo_int).1 = "int"
  /\
  getStringAt (add "char" pool_warpo_int).2 (add "char" pool_warpo_int).1 = "char".
Proof.
  assert (Hr : reachable pool_warpo_int)
    by (apply reach_add, reach_add, reach_empty).
  assert (Hsz : size (data pool_warpo_int) < 2 ^ 32)
    by (vm_compute; reflexivity).
  split.
  - apply (getStringAt_add_roundtrip "int" pool_warpo_int Hr Hsz).
    simpl. repeat split; intros ?; discriminate.
  - apply (getStringAt_add_roundtrip "char" pool_warpo_int Hr Hsz).
    simpl. repeat split; intros ?; discriminate.
Defined.

(** C6 at the pool of [main] (32 bytes) and the offset 100. *)
Lemma getStringAt_out_of_bounds_witness :
  getStringAt main_stringPool 100 = EmptyString /\
  forall root indent OS V val,
    getType V = isInteger val -> getForm V = DW_FORM_strp ->
    uint32 val = 100 ->
    @printValue main_strings root main_stringPool (str_make indent " "%char)
        OS V
      = OS +:+ str_make indent " "%char +:+ "  "
           +:+ main_AttributeString (getAttribute V)
           +:+ " = " +:+ dquote +:+ dquote
           +:+ " (strp offset: 0x" +:+ format_08x val +:+ ")"
           +:+ " [" +:+ main_FormEncodingString (getForm V) +:+ "]" +:+ nl.
Proof.
  apply (@getStringAt_out_of_bounds main_strings main_stringPool 100).
  vm_compute. intros ?; discriminate.
Defined.

(** C7, refuted as stated ("hexadecimal otherwise"): the name of
    [inline_named_type] is no string-pool reference, no entry reference
    and not the encoding attribute, and its line shows the placeholder
    "<unknown type>", which is no hexadecimal number. *)
Lemma printDIE_unknown_value_not_hexadecimal :
  @printDIE main_strings inline_named_type main_stringPool EmptyString
      inline_named_type 0
    = unlines [ "0x0000000b: DW_TAG_base_type [1]";
                "  DW_AT_name = <unknown type> [DW_FORM_string]" ] /\
  values inline_named_type = [inline_name] /\
  getForm inline_name <> DW_FORM_strp /\
  getForm inline_name <> DW_FORM_ref4 /\
  getAttribute inline_name <> DW_AT_encoding /\
  @decoded_value main_strings inline_named_type main_stringPool inline_name
    = "<unknown type>" /\
  ~ (exists v : N,
       @decoded_value main_strings inline_named_type main_stringPool
           inline_name
         = "0x" +:+ format_x v).
Proof.
  split; [vm_compute; reflexivity|].
  split; [reflexivity|].
  split; [intros ?; discriminate|].
  split; [intros ?; discriminate|].
  split; [intros ?; discriminate|].
  split; [reflexivity|].
  intros [v Hv]. unfold decoded_value in Hv. simpl in Hv.
  rewrite str_app_cons in Hv. discriminate Hv.
Qed.

(** C8 at the tree of [main]: a second run on the tree the first run left
    behind gives the same tree. *)
Lemma resolution_deterministic_witness :
  (forall T', strip false T' = strip false main_cu ->
     exists R',
       computeOffsetsAndAbbrevs main_formParams (freshAbbrevSet 1) 11 T'
         = Some R' /\
       triples R' = triples main_resolved_tree) /\
  strip false main_resolved_tree = strip false main_cu /\
  computeOffsetsAndAbbrevs main_formParams (freshAbbrevSet 1) 11
      main_resolved_tree
    = Some main_resolved_tree.
Proof.
  apply (resolution_deterministic main_formParams 1 11 main_cu
           main_resolved_tree).
  vm_compute. reflexivity.
Defined.

(** C10 at the pool that holds "warpo" and "int": the buffer ends with a
    terminator, and reading at its size gives the empty string. *)
Lemma pool_buffer_terminated_witness :
  (data pool_warpo_int = EmptyString \/ ends_with_nul (data pool_warpo_int))
  /\ getStringAt pool_warpo_int (size (data pool_warpo_int)) = EmptyString.
Proof.
  destruct (pool_buffer_terminated pool_warpo_int
              (reach_add _ _ (reach_add _ _ reach_empty)))
    as (_ & Hend & _ & Hsize).
  split; [exact Hend | exact Hsize].
Defined.

(* ===================================================================== *)
(** * More about the string pool                                          *)
(* ===================================================================== *)

Lemma str_drop_app_le (k : nat) (a b : string) :
  (k <= String.length a)%nat -> str_drop k (a +:+ b) = str_drop k a +:+ b.
Proof.
  revert a. induction k as [|k IH]; intros a Hk; [reflexivity|].
  destruct a as [|c a]; simpl in Hk; [lia|].
  rewrite str_app_cons. simpl. apply IH. lia.
Qed.

Lemma str_drop_ge (k : nat) (s : string) :
  (String.length s <= k)%nat -> str_drop k s = EmptyString.
Proof.
  revert s. induction k as [|k IH]; intros s Hk.
  - destruct s; simpl in *; [reflexivity | lia].
  - destruct s as [|c s]; simpl in *; [reflexivity | apply IH; lia].
Qed.

Lemma str_drop_str_drop (a b : nat) (s : string) :
  str_drop a (str_drop b s) = str_drop (b + a) s.
Proof.
  revert s. induction b as [|b IH]; intros s; [reflexivity|].
  destruct s as [|c s]; simpl; [now destruct a | apply IH].
Qed.

(** Bytes after the first terminator play no part in a read. *)
Lemma c_str_read_app_nul (a b : string) (i : nat) :
  String.get i a = Some NUL -> c_str_read (a +:+ b) = c_str_read a.
Proof.
  revert i. induction a as [|c a IH]; intros i Hi; [discriminate|].
  rewrite str_app_cons. simpl. destruct (decide (c = NUL)); [reflexivity|].
  destruct i as [|i]; simpl in Hi; [congruence|]. now rewrite (IH i).
Qed.

Lemma no_nul_c_str_read (s : string) : no_nul (c_str_read s).
Proof.
  induction s as [|c s IH]; simpl; [exact I|].
  destruct (decide (c = NUL)); simpl; auto.
Qed.

Lemma length_c_str_read (s : string) :
  (String.length (c_str_read s) <= String.length s)%nat.
Proof.
  induction s as [|c s IH]; simpl; [lia|].
  destruct (decide (c = NUL)); simpl; lia.
Qed.

Lemma size_data_add (s : string) (p : SimpleStringPool) :
  size (data p) <= size (data (add s p).2).
Proof.
  destruct (offsets p !! s) as [off|] eqn:E.
  - rewrite (add_found _ _ _ E). simpl. lia.
  - rewrite (add_fresh _ _ E). simpl. rewrite size_app. lia.
Qed.

(** X1 -- Distinct strings have distinct offsets.  In a pool reached from
    the empty pool by calls of [add] whose buffer is shorter than [2^32]
    bytes, two strings recorded under the same offset are the same
    string. *)
Theorem add_offsets_injective (p : SimpleStringPool) (s1 s2 : string)
    (o : N) :
  reachable p -> size (data p) < 2 ^ 32 ->
  offsets p !! s1 = Some o -> offsets p !! s2 = Some o -> s1 = s2.
Proof.
  intros Hr. revert s1 s2 o.
  induction Hr as [|s p Hr IH]; intros s1 s2 o Hsz H1 H2.
  - simpl in H1. now rewrite lookup_empty in H1.
  - pose proof (size_data_add s p) as Hgrow.
    destruct (offsets p !! s) as [off|] eqn:E.
    + rewrite (add_found _ _ _ E) in *. simpl in *. eapply IH; eauto.
    + rewrite (add_fresh _ _ E) in *. simpl in *.
      assert (Hold : forall s' o', offsets p !! s' = Some o' ->
                       o' <> uint32 (size (data p))).
      { intros s' o' Hl.
        destruct (pool_inv_reachable p Hr _ _ Hl) as (pre & post & Hd & ->).
        assert (size pre < size (data p))
          by (rewrite Hd, !size_app, size_cons; lia).
        rewrite !uint32_small by lia. lia. }
      apply lookup_insert_Some in H1 as [[<- <-]|[Hn1 H1]];
        apply lookup_insert_Some in H2 as [[<- Ho]|[Hn2 H2]].
      * reflexivity.
      * exfalso. now apply (Hold _ _ H2).
      * exfalso. apply (Hold _ _ H1). now symmetry.
      * apply (IH s1 s2 o); [lia | exact H1 | exact H2].
Qed.

(** X2 -- A string that was interned can be read back at its recorded
    offset at any later time: in a pool reached from the empty pool whose
    buffer is shorter than [2^32] bytes, reading at the offset recorded for
    a string without NUL byte gives that string. *)
Theorem interned_string_read_back (p : SimpleStringPool) (s : string)
    (o : N) :
  reachable p -> size (data p) < 2 ^ 32 ->
  offsets p !! s = Some o -> no_nul s ->
  getStringAt p o = s.
Proof.
  intros Hr Hsz Hl Hs.
  destruct (pool_inv_reachable p Hr _ _ Hl) as (pre & post & Hd & ->).
  rewrite uint32_small.
  - now apply (getStringAt_interned p pre s post).
  - revert Hsz. rewrite Hd, size_app. lia.
Qed.

(** X3 -- [add] never disturbs what the pool already holds: the old buffer
    is a prefix of the new one, every recorded offset stays as it was, and
    in a pool reached from the empty pool every read at an offset inside
    the old buffer gives what it gave before. *)
Theorem add_preserves_contents (s : string) (p : SimpleStringPool) :
  reachable p ->
  (exists suffix, data (add s p).2 = data p +:+ suffix) /\
  (forall s' o, offsets p !! s' = Some o ->
                offsets (add s p).2 !! s' = Some o) /\
  (forall offset, offset < size (data p) ->
     getStringAt (add s p).2 offset = getStringAt p offset).
Proof.
  intros Hr. destruct (offsets p !! s) as [off|] eqn:E.
  - rewrite (add_found _ _ _ E). simpl. repeat split; auto.
    exists EmptyString. now rewrite str_app_nil_r.
  - rewrite (add_fresh _ _ E). simpl. repeat split.
    + now exists (s +:+ String NUL EmptyString).
    + intros s' o Hl. rewrite lookup_insert_ne; [exact Hl|]. congruence.
    + intros offset Hlt. unfold getStringAt. simpl.
      destruct (N.leb_spec (size (data p)) offset) as [Hle|_]; [lia|].
      destruct (N.leb_spec
                  (size (data p +:+ s +:+ String NUL EmptyString)) offset)
        as [Hle|_]; [rewrite size_app in Hle; lia|].
      destruct (reachable_terminated p Hr) as [He|[d Hd]].
      { rewrite He in Hlt. unfold size in Hlt. simpl in Hlt. lia. }
      assert (Hk : (N.to_nat offset <= String.length d)%nat).
      { revert Hlt. rewrite Hd, size_app. unfold size. simpl. lia. }
      rewrite str_drop_app_le by (unfold size in Hlt; lia).
      apply (c_str_read_app_nul _ _ (String.length d - N.to_nat offset)).
      rewrite get_str_drop.
      replace (N.to_nat offset + (String.length d - N.to_nat offset))%nat
        with (String.length d) by lia.
      rewrite Hd. apply get_app_nul.
Qed.

(** X4 -- Whatever the pool and the offset, the string [getStringAt]
    returns holds no NUL byte and is no longer than the rest of the buffer
    from the offset on. *)
Theorem getStringAt_within_buffer (p : SimpleStringPool) (offset : N) :
  no_nul (getStringAt p offset) /\
  size (getStringAt p offset) <= size (data p) - offset.
Proof.
  unfold getStringAt.
  destruct (N.leb_spec (size (data p)) offset) as [Hle|Hlt].
  - split; [exact I|]. unfold size. simpl. lia.
  - split; [apply no_nul_c_str_read|].
    pose proof (length_c_str_read (str_drop (N.to_nat offset) (data p))) as Hl.
    rewrite length_str_drop in Hl. unfold size in *. lia.
Qed.

(** X1 at the pool that holds "warpo" and "int": only "int" is recorded
    at offset 6. *)
Lemma add_offsets_injective_witness :
  offsets pool_warpo_int !! "int" = Some 6 /\
  forall s, offsets pool_warpo_int !! s = Some 6 -> s = "int".
Proof.
  assert (Hint : offsets pool_warpo_int !! "int" = Some 6)
    by (vm_compute; reflexivity).
  split; [exact Hint|]. intros s Hs.
  apply (add_offsets_injective pool_warpo_int s "int" 6).
  - apply reach_add, reach_add, reach_empty.
  - vm_compute. reflexivity.
  - exact Hs.
  - exact Hint.
Defined.

(** X2 at the pool of [main]: "char", interned third of seven strings, is
    read back at its offset 10. *)
Lemma interned_string_read_back_witness :
  getStringAt main_stringPool 10 = "char".
Proof.
  apply (interned_string_read_back main_stringPool "char" 10).
  - change main_stringPool with
      (add "name" (add "y" (add "x" (add "MyClass" (add "char"
         (add "int" (add "warpo" empty_pool).2).2).2).2).2).2).2.
    repeat apply reach_add. apply reach_empty.
  - vm_compute. reflexivity.
  - vm_compute. reflexivity.
  - simpl. repeat split; intros ?; discriminate.
Defined.

(** X3 at the pool that holds "warpo" and "int", when "char" is added. *)
Lemma add_preserves_contents_witness :
  (exists suffix,
     data (add "char" pool_warpo_int).2 = data pool_warpo_int +:+ suffix) /\
  (forall s' o, offsets pool_warpo_int !! s' = Some o ->
                offsets (add "char" pool_warpo_int).2 !! s' = Some o) /\
  (forall offset, offset < size (data pool_warpo_int) ->
     getStringAt (add "char" pool_warpo_int).2 offset
       = getStringAt pool_warpo_int offset).
Proof.
  apply (add_preserves_contents "char" pool_warpo_int).
  apply reach_add, reach_add, reach_empty.
Defined.

(* ===================================================================== *)
(** * The .debug_str listing                                              *)
(* ===================================================================== *)

(** The first C string of a buffer is what a read at its start gives; the
    others follow after its terminator. *)
Lemma c_strings_step (s : string) :
  s <> EmptyString ->
  c_strings s =
  c_str_read s :: c_strings (str_drop (S (String.length (c_str_read s))) s).
Proof.
  induction s as [|c s IH]; intros Hne; [congruence|].
  simpl. destruct (decide (c = NUL)) as [->|Hc]; [reflexivity|].
  simpl. destruct s as [|c' s]; [reflexivity|].
  rewrite IH by discriminate. reflexivity.
Qed.

Lemma c_strings_terminated (s rest : string) :
  no_nul s -> c_strings (s +:+ String NUL rest) = s :: c_strings rest.
Proof.
  induction s as [|c s IH]; intros Hs; [reflexivity|].
  destruct Hs as [Hc Hs]. rewrite str_app_cons. simpl.
  rewrite decide_False by exact Hc. now rewrite IH.
Qed.

Lemma c_strings_terminated_concat (L : list string) :
  Forall no_nul L -> c_strings (terminated_concat L) = L.
Proof.
  induction 1 as [|s L Hs _ IH]; [reflexivity|].
  simpl. rewrite c_strings_terminated by exact Hs. now rewrite IH.
Qed.

Lemma terminated_concat_app (L1 L2 : list string) :
  terminated_concat (L1 ++ L2)
  = terminated_concat L1 +:+ terminated_concat L2.
Proof.
  induction L1 as [|s L1 IH]; [reflexivity|].
  simpl. rewrite IH, str_app_assoc. now rewrite str_app_cons.
Qed.

Lemma size_terminated_concat_take (i : nat) (L : list string) :
  size (terminated_concat (take i L)) <= size (terminated_concat L).
Proof.
  rewrite <- (take_drop i L) at 2. rewrite terminated_concat_app, size_app.
  lia.
Qed.

(** The loop, started anywhere up to one byte past the buffer, ends within
    as many turns as bytes are left and lists the C strings left. *)
Lemma debug_str_loop_from (p : SimpleStringPool) (fuel : nat) :
  size (data p) < 2 ^ 32 - 1 ->
  forall (offset : N) (dumpFile : string),
    offset <= size (data p) + 1 ->
    (String.length (str_drop (N.to_nat offset) (data p)) <= fuel)%nat ->
    debug_str_loop fuel p offset dumpFile =
    Some (dumpFile +:+
          unlines (debug_str_lines offset
                     (c_strings (str_drop (N.to_nat offset) (data p))))).
Proof.
  intros Hsz. induction fuel as [|fuel IH]; intros offset dumpFile Hoff Hfuel.
  - rewrite length_str_drop in Hfuel. simpl. unfold getData.
    destruct (N.ltb_spec offset (size (data p))) as [Hlt|Hge].
    + unfold size in Hlt. lia.
    + rewrite str_drop_ge by (unfold size in Hge; lia).
      simpl. now rewrite str_app_nil_r.
  - simpl. unfold getData.
    destruct (N.ltb_spec offset (size (data p))) as [Hlt|Hge].
    + set (rest := str_drop (N.to_nat offset) (data p)) in *.
      assert (Hrest : rest <> EmptyString).
      { intros He. apply (f_equal String.length) in He. unfold rest in He.
        rewrite length_str_drop in He. simpl in He. unfold size in Hlt. lia. }
      assert (Hstr : getStringAt p offset = c_str_read rest).
      { unfold getStringAt.
        destruct (N.leb_spec (size (data p)) offset); [lia | reflexivity]. }
      rewrite Hstr. pose proof (length_c_str_read rest) as Hlen.
      unfold rest in Hlen. rewrite length_str_drop in Hlen. fold rest in Hlen.
      assert (Hnext : uint32 (offset + (size (c_str_read rest) + 1))
                      = offset + (size (c_str_read rest) + 1)).
      { apply uint32_small. unfold size in *. lia. }
      rewrite Hnext, IH.
      * rewrite (c_strings_step rest Hrest).
        assert (Hdrop : str_drop (S (String.length (c_str_read rest))) rest
                  = str_drop (N.to_nat offset
                              + S (String.length (c_str_read rest)))
                             (data p))
          by (unfold rest; apply str_drop_str_drop).
        rewrite Hdrop.
        replace (N.to_nat (offset + (size (c_str_read rest) + 1)))
          with (N.to_nat offset + S (String.length (c_str_read rest)))%nat
          by (unfold size; lia).
        simpl debug_str_lines. rewrite unlines_cons. unfold debug_str_line.
        now rewrite !str_app_assoc.
      * unfold size in *. lia.
      * rewrite length_str_drop. unfold rest in Hfuel.
        rewrite length_str_drop in Hfuel. unfold size in *. lia.
    + rewrite str_drop_ge by (unfold size in Hge; lia).
      simpl. now rewrite str_app_nil_r.
Qed.

Lemma debug_str_loop_lists_buffer_aux (p : SimpleStringPool) (fuel : nat)
    (dumpFile : string) :
  size (data p) < 2 ^ 32 - 1 ->
  (String.length (data p) <= fuel)%nat ->
  debug_str_loop fuel p 0 dumpFile =
  Some (dumpFile +:+ unlines (debug_str_lines 0 (c_strings (data p)))).
Proof.
  intros Hsz Hfuel.
  apply (debug_str_loop_from p fuel Hsz 0 dumpFile); [lia | exact Hfuel].
Qed.

(** X5 -- The listing loop ends and lists the buffer string by string.
    For every pool whose buffer is shorter than [2^32 - 1] bytes, the loop
    started at offset 0 ends within as many turns as the buffer has bytes,
    and it has then written one line per C string of the buffer, in order,
    each with the offset where the string starts: the first at 0, the next
    one byte past the end of the one before.  Each of these strings is
    what [getStringAt] reads at the start of its piece. *)
Theorem debug_str_loop_lists_buffer (p : SimpleStringPool) (fuel : nat)
    (dumpFile : string) :
  size (data p) < 2 ^ 32 - 1 ->
  (String.length (data p) <= fuel)%nat ->
  debug_str_loop fuel p 0 dumpFile =
  Some (dumpFile +:+ unlines (debug_str_lines 0 (c_strings (data p)))).
Proof. apply debug_str_loop_lists_buffer_aux. Qed.

(** Interning keeps the list of the interned strings in step with the
    pool. *)
Lemma lists_pool_add (L : list string) (s : string) (p : SimpleStringPool) :
  lists_pool L p -> no_nul s ->
  lists_pool (match offsets p !! s with Some _ => L | None => L ++ [s] end)
             (add s p).2.
Proof.
  intros (Hd & Hnn & Hnd & Hdom & Hoff) Hs.
  destruct (offsets p !! s) as [off|] eqn:E.
  - rewrite (add_found _ _ _ E). simpl. repeat split; try assumption; apply Hdom.
  - rewrite (add_fresh _ _ E). simpl.
    assert (Hfresh : s ∉ L).
    { intros Hin. apply Hdom in Hin as [o Ho]. congruence. }
    split; [|split; [|split; [|split]]]; simpl.
    + rewrite Hd, terminated_concat_app. simpl. reflexivity.
    + apply Forall_app. split; [exact Hnn | now constructor].
    + apply NoDup_app. repeat split; [exact Hnd | | apply NoDup_singleton].
      intros x Hx Hx'. apply list_elem_of_singleton in Hx'. now subst.
    + intros s'. rewrite elem_of_app, list_elem_of_singleton, Hdom.
      destruct (decide (s = s')) as [->|Hne].
      * rewrite lookup_insert_eq. split; [eauto | now right].
      * rewrite lookup_insert_ne by exact Hne.
        split; [intros [?|?]; [assumption | congruence] | now left].
    + intros i s' Hi.
      destruct (decide (i < length L)%nat) as [Hlt|Hge].
      * rewrite lookup_app_l in Hi by exact Hlt.
        rewrite take_app_le by lia.
        rewrite lookup_insert_ne; [now apply Hoff|].
        intros ->. apply Hfresh. eapply list_elem_of_lookup_2; eassumption.
      * assert (i = length L) as ->.
        { apply lookup_lt_Some in Hi. rewrite length_app in Hi. simpl in Hi.
          lia. }
        rewrite list_lookup_middle in Hi by reflexivity. injection Hi as <-.
        rewrite take_app_length, lookup_insert_eq, Hd. reflexivity.
Qed.

Lemma lists_pool_reachable (p : SimpleStringPool) :
  reachable_no_nul p -> exists L, lists_pool L p.
Proof.
  induction 1 as [|s p _ [L IH] Hs].
  - exists []. split; [reflexivity|]. split; [constructor|].
    split; [constructor|]. split.
    + intros s. split.
      * intros Hin. now apply elem_of_nil in Hin.
      * intros [o Ho]. simpl in Ho. now rewrite lookup_empty in Ho.
    + intros i s Hi. now rewrite lookup_nil in Hi.
  - exists (match offsets p !! s with Some _ => L | None => L ++ [s] end).
    apply lists_pool_add; assumption.
Qed.

(** The offsets of the lines are the recorded offsets. *)
Lemma debug_str_lines_recorded (f : string -> N) (L : list string) (o : N) :
  (forall i s, L !! i = Some s ->
               f s = o + size (terminated_concat (take i L))) ->
  debug_str_lines o L = map (fun s => debug_str_line (f s) s) L.
Proof.
  revert o. induction L as [|s L IH]; intros o Hf; [reflexivity|].
  simpl. f_equal.
  - rewrite (Hf 0%nat s eq_refl). simpl. f_equal. unfold size. simpl. lia.
  - apply IH. intros i t Hi. rewrite (Hf (S i) t Hi). simpl.
    rewrite size_app, size_cons. lia.
Qed.

(** X6 -- The listing shows every interned string once, with its offset.
    For a pool reached from the empty pool by interning strings without
    NUL byte, with a buffer shorter than [2^32 - 1] bytes, there is a list
    of strings without repetition, holding exactly the strings the pool
    has recorded, such that the loop ends within as many turns as the
    buffer has bytes and writes one line per string of the list, showing
    the offset the pool records for it. *)
Theorem debug_str_loop_lists_interned (p : SimpleStringPool) :
  reachable_no_nul p -> size (data p) < 2 ^ 32 - 1 ->
  exists L : list string,
    NoDup L /\
    (forall s, s ∈ L <-> is_Some (offsets p !! s)) /\
    forall (fuel : nat) (dumpFile : string),
      (String.length (data p) <= fuel)%nat ->
      debug_str_loop fuel p 0 dumpFile =
      Some (dumpFile +:+
            unlines (map (fun s =>
                            debug_str_line (default 0 (offsets p !! s)) s) L)).
Proof.
  intros Hr Hsz. destruct (lists_pool_reachable p Hr)
    as (L & Hd & Hnn & Hnd & Hdom & Hoff).
  exists L. split; [exact Hnd|]. split; [exact Hdom|].
  intros fuel dumpFile Hfuel.
  rewrite (debug_str_loop_lists_buffer_aux p fuel dumpFile Hsz Hfuel).
  rewrite Hd, (c_strings_terminated_concat L Hnn).
  rewrite (debug_str_lines_recorded
             (fun s => default 0 (offsets p !! s)) L 0); [reflexivity|].
  intros i s Hi. rewrite (Hoff i s Hi). simpl.
  pose proof (size_terminated_concat_take i L) as Hle. rewrite <- Hd in Hle.
  rewrite uint32_small by lia. lia.
Qed.

(** X5 at the pool of [main] (32 bytes): the listing has the seven strings
    at their offsets. *)
Lemma debug_str_loop_lists_buffer_witness :
  debug_str_loop 32 main_stringPool 0 EmptyString =
  Some (EmptyString +:+
        unlines (debug_str_lines 0 (c_strings (data main_stringPool)))) /\
  debug_str_lines 0 (c_strings (data main_stringPool)) =
  [ debug_str_line 0 "warpo"; debug_str_line 6 "int";
    debug_str_line 10 "char"; debug_str_line 15 "MyClass";
    debug_str_line 23 "x"; debug_str_line 25 "y"; debug_str_line 27 "name" ].
Proof.
  split.
  - apply (debug_str_loop_lists_buffer main_stringPool 32 EmptyString).
    + vm_compute. reflexivity.
    + vm_compute. lia.
  - vm_compute. reflexivity.
Defined.

(** X6 at the pool of [main]. *)
Lemma debug_str_loop_lists_interned_witness :
  exists L : list string,
    NoDup L /\
    (forall s, s ∈ L <-> is_Some (offsets main_stringPool !! s)) /\
    forall (fuel : nat) (dumpFile : string),
      (String.length (data main_stringPool) <= fuel)%nat ->
      debug_str_loop fuel main_stringPool 0 dumpFile =
      Some (dumpFile +:+
            unlines (map (fun s =>
                            debug_str_line
                              (default 0 (offsets main_stringPool !! s)) s)
                         L)).
Proof.
  apply (debug_str_loop_lists_interned main_stringPool).
  - change main_stringPool with
      (add "name" (add "y" (add "x" (add "MyClass" (add "char"
         (add "int" (add "warpo" empty_pool).2).2).2).2).2).2).2.
    repeat (apply reach_nn_add;
            [|simpl; repeat split; intros ?; discriminate]).
    apply reach_nn_empty.
  - vm_compute. reflexivity.
Defined.

(** X14 -- What the buffer holds.  In a pool reached from the empty pool
    by interning strings without NUL byte, the buffer is the recorded
    strings one after the other, each once and each followed by one
    terminator, and the offset recorded for a string is the 32-bit size of
    the buffer before it. *)
Theorem pool_buffer_is_recorded_strings (p : SimpleStringPool) :
  reachable_no_nul p ->
  exists L : list string,
    NoDup L /\
    (forall s, s ∈ L <-> is_Some (offsets p !! s)) /\
    getData p = terminated_concat L /\
    c_strings (getData p) = L /\
    size (getData p) = N.of_nat (list_sum (map (fun s => S (String.length s)) L)) /\
    forall i s, L !! i = Some s ->
      offsets p !! s = Some (uint32 (size (terminated_concat (take i L)))).
Proof.
  intros Hr. destruct (lists_pool_reachable p Hr)
    as (L & Hd & Hnn & Hnd & Hdom & Hoff).
  exists L. unfold getData. rewrite Hd.
  repeat split; try assumption; try apply Hdom.
  - now apply c_strings_terminated_concat.
  - clear. induction L as [|s L IH]; [reflexivity|].
    simpl. rewrite size_app, size_cons, IH. unfold size. lia.
Qed.

(** X14 at the pool that holds "warpo" and "int". *)
Lemma pool_buffer_is_recorded_strings_witness :
  exists L : list string,
    NoDup L /\
    (forall s, s ∈ L <-> is_Some (offsets pool_warpo_int !! s)) /\
    getData pool_warpo_int = terminated_concat L /\
    c_strings (getData pool_warpo_int) = L /\
    size (getData pool_warpo_int)
      = N.of_nat (list_sum (map (fun s => S (String.length s)) L)) /\
    forall i s, L !! i = Some s ->
      offsets pool_warpo_int !! s
        = Some (uint32 (size (terminated_concat (take i L)))).
Proof.
  apply (pool_buffer_is_recorded_strings pool_warpo_int).
  unfold pool_warpo_int.
  repeat (apply reach_nn_add;
          [|simpl; repeat split; intros ?; discriminate]).
  apply reach_nn_empty.
Defined.

(* ===================================================================== *)
(** * More about lines and the debug_line filter                          *)
(* ===================================================================== *)

Lemma getlines_nil (s : string) : getlines s = [] -> s = EmptyString.
Proof.
  destruct s as [|c s]; [reflexivity|]. simpl.
  destruct (decide (c = ascii_of_nat 10)); [discriminate|].
  destruct (getlines s); discriminate.
Qed.

(** Reading back a line that was written with its line feed. *)
Lemma getlines_line (s rest : string) :
  no_newline s -> getlines (s +:+ nl +:+ rest) = s :: getlines rest.
Proof.
  induction s as [|c s IH]; intros Hs.
  - unfold nl. rewrite str_app_nil_l, str_app_cons, str_app_nil_l.
    reflexivity.
  - destruct Hs as [Hc Hs]. rewrite str_app_cons. simpl.
    rewrite decide_False by exact Hc. now rewrite IH.
Qed.

Lemma getlines_unlines (ls : list string) :
  Forall no_newline ls -> getlines (unlines ls) = ls.
Proof.
  induction 1 as [|l ls Hl _ IH]; [reflexivity|].
  rewrite unlines_cons, getlines_line by exact Hl. now rewrite IH.
Qed.

Lemma no_newline_getlines (s : string) : Forall no_newline (getlines s).
Proof.
  induction s as [|c s IH]; simpl; [constructor|].
  destruct (decide (c = ascii_of_nat 10)) as [->|Hc].
  - constructor; [exact I | exact IH].
  - destruct (getlines s) as [|l ls]; constructor; simpl; auto.
    + now inversion IH.
    + now inversion IH.
Qed.

Lemma unlines_getlines (t : string) :
  unlines (getlines t) = if ends_with_newline t then t else t +:+ nl.
Proof.
  induction t as [|c t IH]; [reflexivity|].
  simpl getlines. destruct (decide (c = ascii_of_nat 10)) as [->|Hc].
  - rewrite unlines_cons, IH, str_app_nil_l. destruct t as [|c' t].
    + reflexivity.
    + change (ends_with_newline (String (ascii_of_nat 10) (String c' t)))
        with (ends_with_newline (String c' t)).
      unfold nl at 1. rewrite str_app_cons, str_app_nil_l.
      destruct (ends_with_newline (String c' t)); [reflexivity|].
      now rewrite str_app_cons.
  - destruct t as [|c' t].
    + simpl. rewrite bool_decide_eq_false_2 by exact Hc. reflexivity.
    + change (ends_with_newline (String c (String c' t)))
        with (ends_with_newline (String c' t)).
      destruct (getlines (String c' t)) as [|l ls] eqn:E.
      { apply getlines_nil in E. discriminate. }
      rewrite unlines_cons, str_app_cons. rewrite unlines_cons in IH.
      rewrite IH. destruct (ends_with_newline (String c' t)); [reflexivity|].
      now rewrite str_app_cons.
Qed.

(** X13 -- Lines and text.  The lines [std::getline] produces hold no line
    feed; writing them back, each followed by a line feed, gives the text
    again, with a line feed added at the end if the text did not end with
    one; and lines without line feed that were written this way are read
    back as they were. *)
Theorem getlines_round_trip (t : string) :
  Forall no_newline (getlines t) /\
  unlines (getlines t) = (if ends_with_newline t then t else t +:+ nl) /\
  forall ls, Forall no_newline ls -> getlines (unlines ls) = ls.
Proof.
  split; [apply no_newline_getlines|].
  split; [apply unlines_getlines | apply getlines_unlines].
Qed.

Lemma Forall_kept_lines (P : string -> Prop) (l : list string) :
  Forall P l -> Forall P (kept_lines l).
Proof.
  induction l as [|x l IH] using rev_ind; intros Hl; [constructor|].
  apply Forall_app in Hl as [Hl Hx]. rewrite kept_lines_snoc.
  apply Forall_app. split; [now apply IH|].
  destruct (omitted (l ++ [x]) (length l)); [constructor | exact Hx].
Qed.

Lemma kept_lines_sublist (l : list string) : kept_lines l `sublist_of` l.
Proof.
  induction l as [|x l IH] using rev_ind; [reflexivity|].
  rewrite kept_lines_snoc. apply sublist_app; [exact IH|].
  destruct (omitted (l ++ [x]) (length l)); [apply sublist_nil_l | reflexivity].
Qed.

Lemma kept_lines_no_header (l : list string) :
  Forall (fun x => is_debug_line_header x = false) (kept_lines l).
Proof.
  induction l as [|x l IH] using rev_ind; [constructor|].
  rewrite kept_lines_snoc. apply Forall_app. split; [exact IH|].
  destruct (omitted (l ++ [x]) (length l)) eqn:E; [constructor|].
  rewrite omitted_snoc in E. apply orb_false_iff in E as [E _].
  now repeat constructor.
Qed.

Lemma kept_lines_without_header (l : list string) :
  Forall (fun x => is_debug_line_header x = false) l -> kept_lines l = l.
Proof.
  induction l as [|x l IH] using rev_ind; intros Hl; [reflexivity|].
  apply Forall_app in Hl as [Hl Hx]. inversion Hx as [|? ? Hx' _]; subst.
  rewrite kept_lines_snoc, omitted_snoc, Hx', (IH Hl). simpl.
  assert (Hflag : last_flag l = false).
  { unfold last_flag. destruct (length l) as [|n] eqn:En; [reflexivity|].
    destruct (omitted l n) eqn:E; [|reflexivity].
    apply omitted_spec in E as (j & Hj & Hdl & _).
    destruct (nth_in_or_default j l EmptyString) as [Hin|Hd].
    - rewrite Forall_forall in Hl. apply list_elem_of_In in Hin.
      rewrite (Hl _ Hin) in Hdl. discriminate.
    - rewrite Hd in Hdl. discriminate. }
  rewrite Hflag, andb_false_r. reflexivity.
Qed.

Lemma filter_debug_line_eq (t : string) :
  filter_debug_line t = unlines (kept_lines (getlines t)).
Proof. unfold filter_debug_line. now rewrite filter_loop_state. Qed.

Lemma getlines_filter_debug_line (t : string) :
  getlines (filter_debug_line t) = kept_lines (getlines t).
Proof.
  rewrite filter_debug_line_eq. apply getlines_unlines.
  apply Forall_kept_lines, no_newline_getlines.
Qed.

(** X7 -- Filtering twice is filtering once: the output of the filter
    passes through the filter unchanged. *)
Theorem filter_debug_line_idempotent (t : string) :
  filter_debug_line (filter_debug_line t) = filter_debug_line t.
Proof.
  rewrite (filter_debug_line_eq (filter_debug_line t)).
  rewrite getlines_filter_debug_line.
  rewrite kept_lines_without_header by apply kept_lines_no_header.
  symmetry. apply filter_debug_line_eq.
Qed.

(** X8 -- No line of the output contains ".debug_line contents:". *)
Theorem filter_output_has_no_debug_line_header (t : string) :
  Forall (fun line => contains ".debug_line contents:" line = false)
         (getlines (filter_debug_line t)).
Proof. rewrite getlines_filter_debug_line. apply kept_lines_no_header. Qed.

(** X9 -- The filter only removes lines: the lines of the output are lines
    of the input, in the order of the input, none changed, none added. *)
Theorem filter_output_is_subsequence (t : string) :
  getlines (filter_debug_line t) `sublist_of` getlines t.
Proof. rewrite getlines_filter_debug_line. apply kept_lines_sublist. Qed.

(** X10 -- A dump without line-number section passes unchanged.  If no
    line of the text contains ".debug_line contents:", the output is the
    text itself, with a line feed added at the end if the text did not end
    with one; later section headers change nothing. *)
Theorem filter_without_debug_line_is_identity (t : string) :
  Forall (fun line => contains ".debug_line contents:" line = false)
         (getlines t) ->
  filter_debug_line t = if ends_with_newline t then t else t +:+ nl.
Proof.
  intros Hno. rewrite filter_debug_line_eq.
  rewrite kept_lines_without_header by exact Hno. apply unlines_getlines.
Qed.

(** X10 at a dump of two sections whose last line has no line feed. *)
Lemma filter_without_debug_line_is_identity_witness :
  let t := ".debug_info contents:" +:+ nl +:+ "0x0000000b: DW_TAG_compile_unit"
             +:+ nl +:+ ".debug_str contents:" +:+ nl +:+ "0x00000000: warpo" in
  filter_debug_line t = t +:+ nl.
Proof.
  intros t.
  apply (filter_without_debug_line_is_identity t).
  vm_compute. repeat constructor.
Defined.

(* ===================================================================== *)
(** * More about the dump writer                                          *)
(* ===================================================================== *)




Section DumpExtras.
Context `{DwarfStrings}.





End DumpExtras.
